(** * A shallow embedding of [simple_task/bitonic_sorter.cc]

    The program sorts the integers given on its command line with a bitonic
    sorting network whose comparators are Legion tasks.  This development
    embeds the C++ source function by function and proves properties of the
    embedding.

    Conventions.
    - [int] is a 32-bit two's-complement integer, held in [Z]; arithmetic that
      can leave the range is wrapped with [wrap32].  [size_t] is 64 bits wide.
    - [std::vector<int>] and [MyVec<int>] are [list Z]; [operator[]] outside
      the vector is undefined behaviour and yields [Undef].
    - A failed [assert] (or an uncaught C++ exception) yields [Abort].
    - Tasks are deterministic and a [Future] is only ever read through
      [get_result], so a future is represented by the value its task returns;
      a task that fails makes its launcher fail in the same way.
    - Loops run through the combinator [loop], which carries a step budget;
      every caller supplies a budget computed from the loop bounds, and the
      theorems below show that the budget is never exhausted on the inputs
      they cover. *)

From Stdlib Require Import ZArith Lia ZifyBool Ascii String.
From Stdlib Require Import Strings.Byte.
From stdpp Require Import base numbers list sorting.

Local Open Scope Z_scope.

(** ** Outcomes of a computation *)

Inductive outcome (A : Type) : Type :=
  | Done (a : A)   (* normal completion *)
  | Abort          (* assertion failure / uncaught exception *)
  | Undef          (* undefined behaviour: access outside a vector *)
  | Fuel.          (* the step budget of [loop] ran out *)
Arguments Done {A} a.
Arguments Abort {A}.
Arguments Undef {A}.
Arguments Fuel {A}.

#[global] Instance outcome_ret : MRet outcome := @Done.
#[global] Instance outcome_bind : MBind outcome := λ A B k m,
  match m with
  | Done a => k a
  | Abort => Abort
  | Undef => Undef
  | Fuel => Fuel
  end.

Definition assert (b : bool) : outcome unit := if b then Done tt else Abort.

(** [while (cond s) s = body s], with a step budget. *)
Fixpoint loop {S : Type} (fuel : nat) (cond : S → bool) (body : S → outcome S)
    (s : S) : outcome S :=
  match fuel with
  | O => Fuel
  | Datatypes.S fuel' =>
      if cond s then s' ← body s; loop fuel' cond body s' else Done s
  end.

(** [for (int v = init; cond v; v = step v) s = body v s]. *)
Definition for_ {S : Type} (fuel : nat) (init : Z) (cond : Z → bool)
    (step : Z → Z) (body : Z → S → outcome S) (s : S) : outcome S :=
  r ← loop fuel (λ st, cond st.1)
        (λ st, s' ← body st.1 st.2; Done (step st.1, s')) (init, s);
  Done r.2.

(** ** Machine integers *)

Definition INT_MAX : Z := 2147483647.
Definition INT_MIN : Z := -2147483648.
Definition sizeof_int : Z := 4.
Definition sizeof_size_t : Z := 8.

Definition is_int (z : Z) : Prop := INT_MIN ≤ z ≤ INT_MAX.

(** Two's-complement reduction to 32 bits, and reduction to [size_t]. *)
Definition wrap32 (z : Z) : Z := (z + 2 ^ 31) mod 2 ^ 32 - 2 ^ 31.
Definition wrap64u (z : Z) : Z := z mod 2 ^ 64.

Definition int_add (a b : Z) : Z := wrap32 (a + b).
Definition int_sub (a b : Z) : Z := wrap32 (a - b).
Definition int_mul (a b : Z) : Z := wrap32 (a * b).
Definition int_neg (a : Z) : Z := wrap32 (- a).
Definition int_and (a b : Z) : Z := Z.land a b.
Definition int_shl (a b : Z) : Z := wrap32 (Z.shiftl a b).
Definition int_div (a b : Z) : Z := wrap32 (Z.quot a b).

(** ** Vectors *)

Abbreviation MyVec := (list Z).

Definition size {A} (v : list A) : Z := wrap64u (Z.of_nat (length v)).

(** [v[i]] for an [int] index: the index is converted to [size_t]. *)
Definition vec_get {A} (v : list A) (i : Z) : outcome A :=
  if 0 <=? i then
    match v !! Z.to_nat i with
    | Some x => Done x
    | None => Undef
    end
  else Undef.

(** [v[i] = x]. *)
Definition vec_set {A} (v : list A) (i : Z) (x : A) : outcome (list A) :=
  if (0 <=? i) && (i <? Z.of_nat (length v)) then Done (<[Z.to_nat i := x]> v)
  else Undef.

(** [MyVec<T>::append]. *)
Definition append {A} (v : list A) (e : A) : list A := v ++ [e].

(** ** The sequence codec of [MyVec<int>] *)

Definition byte_of_Z (z : Z) : byte :=
  match Byte.of_N (Z.to_N (z mod 256)) with
  | Some b => b
  | None => x00
  end.

Definition Z_of_byte (b : byte) : Z := Z.of_N (Byte.to_N b).

(** Object representation of an [n]-byte integer (little endian). *)
Fixpoint store_le (n : nat) (z : Z) : list byte :=
  match n with
  | O => []
  | Datatypes.S n' => byte_of_Z z :: store_le n' (z / 256)
  end.

Fixpoint load_le (bs : list byte) : Z :=
  match bs with
  | [] => 0
  | b :: bs' => Z_of_byte b + 256 * load_le bs'
  end.

(** Reading [n] bytes at offset [off]; outside the buffer it is undefined. *)
Definition read_bytes (buffer : list byte) (off : Z) (n : Z) : outcome (list byte) :=
  if (0 <=? off) && (off + n <=? Z.of_nat (length buffer))
  then Done (take (Z.to_nat n) (drop (Z.to_nat off) buffer))
  else Undef.

Definition read_size_t (buffer : list byte) (off : Z) : outcome Z :=
  bs ← read_bytes buffer off sizeof_size_t; Done (load_le bs).

Definition read_int (buffer : list byte) (off : Z) : outcome Z :=
  bs ← read_bytes buffer off sizeof_int; Done (wrap32 (load_le bs)).

(** [legion_buffer_size]: [result] starts at [sizeof(size_t)] and grows by
    [sizeof(e)] per element. *)
Definition legion_buffer_size (vec : MyVec) : Z :=
  fold_left (λ result _, wrap64u (result + sizeof_int)) vec sizeof_size_t.

(** [legion_serialize]: the state of the range-for loop is the bytes written
    so far and the offset [target - buffer]; the function returns the bytes
    it wrote and that offset. *)
Definition legion_serialize (vec : MyVec) : list byte * Z :=
  fold_left
    (λ st e, (st.1 ++ store_le (Z.to_nat sizeof_int) e,
              wrap64u (st.2 + sizeof_int)))
    vec
    (store_le (Z.to_nat sizeof_size_t) (size vec), sizeof_size_t).

(** [legion_deserialize]: after [vec.resize(length)] the range-for loop fills
    the [length] elements in order, advancing [source]. *)
Fixpoint read_elems (n : nat) (buffer : list byte) (source : Z) : outcome (MyVec * Z) :=
  match n with
  | O => Done ([], source)
  | Datatypes.S n' =>
      e ← read_int buffer source;
      r ← read_elems n' buffer (wrap64u (source + sizeof_int));
      Done (e :: r.1, r.2)
  end.

Definition legion_deserialize (buffer : list byte) : outcome (MyVec * Z) :=
  len ← read_size_t buffer 0;
  read_elems (Z.to_nat len) buffer sizeof_size_t.

(** ** Tasks *)

Abbreviation Future := (list Z).

Record Task := mkTask { args : list Z; futures : list Future }.

(** [task->arglen]: the argument buffer of a launcher holds [int]s. *)
Definition arglen (task : Task) : Z := sizeof_int * Z.of_nat (length (args task)).

(** [single_swap_task]. *)
Definition single_swap_task (task : Task) : outcome MyVec :=
  _ ← assert (arglen task =? sizeof_int * 2);
  v0 ← vec_get (args task) 0;
  v1 ← vec_get (args task) 1;
  Done [Z.min v0 v1; Z.max v0 v1].

(** Launching a comparator on [{a, b}] and reading its future. *)
Definition launch_single_swap (a b : Z) : outcome MyVec :=
  single_swap_task {| args := [a; b]; futures := [] |}.

(** Step budget of a counting loop whose bound is [n]. *)
Definition budget (n : Z) : nat := Datatypes.S (Z.to_nat n).

(** [MyVec<int> sorted(sz)]: [sz] value-initialised slots; a negative [int]
    converts to a huge [size_t] and the constructor throws. *)
Definition new_vec (sz : Z) : outcome MyVec :=
  if sz <? 0 then Abort else Done (replicate (Z.to_nat sz) 0).

(** "First do crosswork, split the sorted subsequences into bitonic
    subsequences" of [subsorter_task]: one comparator per [i] on
    [{vec1[i], vec2[num_vec-i-1]}], then its results are stored at [i] and
    [num_total-i-1]. *)
Definition crosswork (vec1 vec2 : MyVec) (num_vec num_total : Z) (sorted : MyVec)
    : outcome MyVec :=
  (* launch tasks *)
  results ← for_ (budget num_vec) 0 (λ i, i <? num_vec) (λ i, int_add i 1)
    (λ i results,
       a ← vec_get vec1 i;
       b ← vec_get vec2 (int_sub (int_sub num_vec i) 1);
       res ← launch_single_swap a b;
       Done (results ++ [res])) [];
  (* get results *)
  for_ (budget num_vec) 0 (λ i, i <? num_vec) (λ i, int_add i 1)
    (λ i sorted,
       values ← vec_get results i;
       v0 ← vec_get values 0;
       v1 ← vec_get values 1;
       sorted ← vec_set sorted i v0;
       vec_set sorted (int_sub (int_sub num_total i) 1) v1) sorted.

(** One iteration of the loop over [gap]: the comparators of every window
    are launched on the current buffer, then their results are stored; the
    state of the second loop nest is [(j, sorted)]. *)
Definition clean_round (num_total gap : Z) (sorted : MyVec) : outcome MyVec :=
  let half_sz := int_div gap 2 in
  (* launch tasks *)
  results ← for_ (budget num_total) 0 (λ lo, lo <? num_total) (λ lo, int_add lo gap)
    (λ lo results,
       for_ (budget half_sz) 0 (λ i, i <? half_sz) (λ i, int_add i 1)
         (λ i results,
            a ← vec_get sorted (int_add lo i);
            b ← vec_get sorted (int_add (int_add lo i) half_sz);
            res ← launch_single_swap a b;
            Done (results ++ [res])) results) [];
  (* get results *)
  r ← for_ (budget num_total) 0 (λ lo, lo <? num_total) (λ lo, int_add lo gap)
    (λ lo st,
       for_ (budget half_sz) 0 (λ i, i <? half_sz) (λ i, int_add i 1)
         (λ i st,
            values ← vec_get results st.1;
            v0 ← vec_get values 0;
            v1 ← vec_get values 1;
            sorted ← vec_set st.2 (int_add lo i) v0;
            sorted ← vec_set sorted (int_add (int_add lo i) half_sz) v1;
            Done (int_add st.1 1, sorted)) st) (0, sorted);
  Done r.2.

(** "Then sort each bitonic subsequence". *)
Definition sort_bitonic (num_vec num_total : Z) (sorted : MyVec) : outcome MyVec :=
  for_ (budget 32) num_vec (λ gap, 1 <? gap) (λ gap, int_div gap 2)
    (clean_round num_total) sorted.

(** The working buffer after the cross phase. *)
Definition cross_phase (vec1 vec2 : MyVec) : outcome MyVec :=
  let num_vec := wrap32 (size vec1) in
  let num_total := int_mul num_vec 2 in
  sorted ← new_vec num_total;
  crosswork vec1 vec2 num_vec num_total sorted.

(** [subsorter_task]: the two assertions, the cross phase and the rounds. *)
Definition subsorter_task (task : Task) : outcome MyVec :=
  _ ← assert (size (futures task) =? 2);
  vec1 ← vec_get (futures task) 0;
  vec2 ← vec_get (futures task) 1;
  _ ← assert (size vec1 =? size vec2);
  let num_vec := wrap32 (size vec1) in
  let num_total := int_mul num_vec 2 in
  sorted ← cross_phase vec1 vec2;
  sort_bitonic num_vec num_total sorted.

(** Launching a merge on two futures. *)
Definition launch_subsorter (f1 f2 : Future) : outcome MyVec :=
  subsorter_task {| args := []; futures := [f1; f2] |}.

(** ** The C library's [atoi]

    [atoi] is [(int) strtol (nptr, NULL, 10)]: white space is skipped, an
    optional sign is read, then the longest run of decimal digits; with no
    digit the value is 0, and no error is ever reported.  [strtol] clamps to
    the range of [long]. *)

Definition char_code (c : ascii) : Z := Z.of_N (N_of_ascii c).

Definition isspace (c : ascii) : bool :=
  (char_code c =? 32) || ((9 <=? char_code c) && (char_code c <=? 13)).

Definition isdigit (c : ascii) : bool :=
  (48 <=? char_code c) && (char_code c <=? 57).

Fixpoint skip_space (s : string) : string :=
  match s with
  | String c s' => if isspace c then skip_space s' else s
  | EmptyString => s
  end.

Fixpoint digits (acc : Z) (s : string) : Z :=
  match s with
  | String c s' => if isdigit c then digits (10 * acc + (char_code c - 48)) s' else acc
  | EmptyString => acc
  end.

Definition LONG_MAX : Z := 2 ^ 63 - 1.
Definition LONG_MIN : Z := - 2 ^ 63.

Definition strtol (s : string) : Z :=
  match skip_space s with
  | String "-"%char s' => Z.max LONG_MIN (- digits 0 s')
  | String "+"%char s' => Z.min LONG_MAX (digits 0 s')
  | s' => Z.min LONG_MAX (digits 0 s')
  end.

Definition atoi (s : string) : Z := wrap32 (strtol s).

(** ** The top-level task *)

(** Legion's [InputArgs]. *)
Record InputArgs := mkInputArgs { argv : list string; argc : Z }.

(** [argv[i][0] == '-']; the first character of an empty string is NUL. *)
Definition starts_with_dash (arg : string) : bool :=
  match arg with
  | String c _ => Ascii.eqb c "-"%char
  | EmptyString => false
  end.

(** "handle inputs": the state of the loop is [(i, num_inputs, nums)]; the
    loop runs while [i < argc], and the [continue] branch of its body runs
    [i++] twice. *)
Definition inputs_cond (command_args : InputArgs) (st : Z * Z * list Z) : bool :=
  st.1.1 <? argc command_args.

Definition inputs_body (command_args : InputArgs) (st : Z * Z * list Z)
    : outcome (Z * Z * list Z) :=
  let '(i, num_inputs, nums) := st in
  arg ← vec_get (argv command_args) i;
  if starts_with_dash arg
  then Done (int_add (int_add i 1) 1, num_inputs, nums)
  else Done (int_add i 1, int_add num_inputs 1, nums ++ [atoi arg]).

Definition handle_inputs (command_args : InputArgs) : outcome (Z * list Z) :=
  st ← loop (budget (argc command_args))
    (inputs_cond command_args) (inputs_body command_args) (1, 0, []);
  Done (st.1.2, st.2).

(** "find the next-least power of 2, and fill up with max values". *)
Definition next_total (num_inputs : Z) : outcome Z :=
  loop (budget 32)
    (λ num_total, negb (num_total =? int_and num_total (int_neg num_total)))
    (λ num_total, Done (int_add num_total (int_and num_total (int_neg num_total))))
    num_inputs.

Definition normalize (num_inputs : Z) (nums : list Z) : outcome (Z * list Z) :=
  num_total ← next_total num_inputs;
  nums ← for_ (budget num_total) num_inputs (λ i, i <? num_total) (λ i, int_add i 1)
    (λ _ nums, Done (nums ++ [INT_MAX])) nums;
  Done (num_total, nums).

(** "First, do single swaps to acquire initial future results". *)
Definition first_swaps (num_total : Z) (nums : list Z) : outcome (list Future) :=
  for_ (budget num_total) 0 (λ lo, lo <? num_total) (λ lo, int_add lo 2)
    (λ lo results,
       a ← vec_get nums lo;
       b ← vec_get nums (int_add lo 1);
       res ← launch_single_swap a b;
       Done (results ++ [res])) [].

(** [v.back()]. *)
Definition back {A} (v : list A) : outcome A :=
  match last v with
  | Some x => Done x
  | None => Undef
  end.

(** "Then iteratively merge sorting results from previous operations"; the
    state of the inner loop is [(j, results)]. *)
Definition merge_rounds (num_total : Z) (iterResults : list (list Future))
    : outcome (list (list Future)) :=
  for_ (budget 32) 4 (λ gap, gap <=? num_total) (λ gap, int_shl gap 1)
    (λ gap iterResults,
       r ← for_ (budget num_total) 0 (λ lo, lo <? num_total) (λ lo, int_add lo gap)
         (λ lo st,
            prev ← back iterResults;
            f1 ← vec_get prev (int_mul st.1 2);
            f2 ← vec_get prev (int_add (int_mul st.1 2) 1);
            res ← launch_subsorter f1 f2;
            Done (int_add st.1 1, st.2 ++ [res])) (0, []);
       Done (iterResults ++ [r.2])) iterResults.

(** [print_myvec] writes "# " for a slot holding [INT_MAX] and the number
    otherwise; its output is kept as a list of tokens. *)
Inductive token : Type := Hash | Num (z : Z).

Definition token_value (t : token) : Z :=
  match t with
  | Hash => INT_MAX
  | Num z => z
  end.

Definition print_myvec (sorted : MyVec) (start end_ : Z) : outcome (list token) :=
  for_ (budget (end_ - start)) start (λ i, i <? end_) (λ i, int_add i 1)
    (λ i out,
       x ← vec_get sorted i;
       Done (out ++ [if x =? INT_MAX then Hash else Num x])) [].

(** What the top-level task does after round 0, given the futures of that
    round: the merge rounds, the two assertions and the printing. *)
Definition after_first_swaps (num_inputs num_total : Z) (results : list Future)
    : outcome (list token) :=
  iterResults ← merge_rounds num_total [results];
  last_round ← back iterResults;
  _ ← assert (size last_round =? 1);
  sorted ← vec_get last_round 0;
  _ ← assert (size sorted =? wrap64u num_total);
  print_myvec sorted 0 num_inputs.

(** [top_level_task]; the result is what it prints after "sorting results:". *)
Definition top_level_task (command_args : InputArgs) : outcome (list token) :=
  '(num_inputs, nums) ← handle_inputs command_args;
  _ ← assert (0 <? num_inputs);
  '(num_total, nums) ← normalize num_inputs nums;
  results ← first_swaps num_total nums;
  after_first_swaps num_inputs num_total results.

(** The command line [prog a1 a2 ...] as the runtime hands it over. *)
Definition command_line (args : list string) : InputArgs :=
  {| argv := "bitonic_sorter"%string :: args;
     argc := Z.of_nat (Datatypes.S (length args)) |}.

(** * Vocabulary of the specification

    Predicates and readings taken from the prose of the specification, to be
    compared with what the embedded code computes. *)

(** The image of a sequence fits the address space. *)
Definition addressable (s : MyVec) : Prop :=
  sizeof_size_t + sizeof_int * Z.of_nat (length s) < 2 ^ 64.

(** The bytes of the elements, in order. *)
Definition elem_bytes (s : MyVec) : list byte :=
  flat_map (store_le (Z.to_nat sizeof_int)) s.

(** What a task boundary does to a sequence. *)
Definition encode (s : MyVec) : list byte := (legion_serialize s).1.
Definition decode (buffer : list byte) : outcome MyVec :=
  r ← legion_deserialize buffer; Done r.1.

(** The tokens that are data, read as the interface describes it: scanning
    from the left, a token that begins with '-' is dropped together with the
    token after it; every other token is kept. *)
Fixpoint positional (tokens : list string) : list string :=
  match tokens with
  | [] => []
  | t :: rest =>
      if starts_with_dash t
      then match rest with
           | [] => []
           | _ :: rest' => positional rest'
           end
      else t :: positional rest
  end.

(** A token is numeric when it is an optional sign followed by one or more
    decimal digits and nothing else. *)
Fixpoint all_digits (s : string) : bool :=
  match s with
  | String c s' => isdigit c && all_digits s'
  | EmptyString => true
  end.

Definition numeric (s : string) : bool :=
  match s with
  | String c s' =>
      if (Ascii.eqb c "-"%char || Ascii.eqb c "+"%char)%bool
      then negb (String.eqb s' "") && all_digits s'
      else all_digits s
  | EmptyString => false
  end.

(** A token has a leading number when, after white space and an optional
    sign, a digit follows. *)
Definition first_is_digit (s : string) : bool :=
  match s with
  | String c _ => isdigit c
  | EmptyString => false
  end.

Definition leading_number (s : string) : bool :=
  match skip_space s with
  | String c s' =>
      if (Ascii.eqb c "-"%char || Ascii.eqb c "+"%char)%bool
      then first_is_digit s'
      else isdigit c
  | EmptyString => false
  end.

(** The smallest power of two that is at least [n]. *)
Definition is_next_pow2 (n p : Z) : Prop :=
  ∃ k, 0 ≤ k ∧ p = 2 ^ k ∧ n ≤ p ∧ ∀ k', 0 ≤ k' → n ≤ 2 ^ k' → p ≤ 2 ^ k'.

(** A sequence is bitonic when some rotation of it rises and then falls, or
    falls and then rises (the bounded [Exists] keeps the property
    decidable). *)
Definition rises (s : list Z) : Prop := Sorted Z.le s.
Definition falls (s : list Z) : Prop := Sorted (λ x y, y ≤ x) s.

Definition rise_fall (s : list Z) : Prop :=
  Exists (λ j, rises (take j s) ∧ falls (drop j s)) (seq 0 (Datatypes.S (length s))).

Definition fall_rise (s : list Z) : Prop :=
  Exists (λ j, falls (take j s) ∧ rises (drop j s)) (seq 0 (Datatypes.S (length s))).

Definition bitonic (s : list Z) : Prop :=
  Exists (λ i, rise_fall (rotate i s) ∨ fall_rise (rotate i s))
         (seq 0 (Datatypes.S (length s))).

#[global] Instance rises_dec s : Decision (rises s).
Proof. unfold rises. apply _. Defined.
#[global] Instance falls_dec s : Decision (falls s).
Proof. unfold falls. apply _. Defined.
#[global] Instance rise_fall_dec s : Decision (rise_fall s).
Proof. unfold rise_fall. apply _. Defined.
#[global] Instance fall_rise_dec s : Decision (fall_rise s).
Proof. unfold fall_rise. apply _. Defined.
#[global] Instance bitonic_dec s : Decision (bitonic s).
Proof. unfold bitonic. apply _. Defined.

(** * Functions used in the proofs

    Pure counterparts of the loops of the program; each is proved equal to
    the embedded code before it is reasoned about. *)

(** Running a loop body over the successive values of its counter. *)
Fixpoint foldM {A S : Type} (body : A → S → outcome S) (l : list A) (s : S)
    : outcome S :=
  match l with
  | [] => Done s
  | x :: l' => s' ← body x s; foldM body l' s'
  end.

(** The values of the counter of [for (v = init; v < n; v += step)]. *)
Definition counter_values (init step : Z) (count : nat) : list Z :=
  map (λ k, init + step * Z.of_nat k) (seq 0 count).

(** A sequence of stores [s[i] = x] into a buffer. *)
Definition apply_writes (ws : list (nat * Z)) (s : list Z) : list Z :=
  foldl (λ s' w, <[w.1 := w.2]> s') s ws.

(** The comparator outputs of the cross phase, slot by slot. *)
Definition cross_slot (l r : list Z) (p : nat) : Z :=
  let m := length l in
  if (p <? m)%nat
  then Z.min (l !!! p) (r !!! (m - 1 - p)%nat)
  else Z.max (l !!! (2 * m - 1 - p)%nat) (r !!! (p - m)%nat).

(** The buffer after the cross phase. *)
Definition cross (l r : list Z) : list Z :=
  map (cross_slot l r) (seq 0 (2 * length l)).

(** One half-cleaner round with windows of [g] slots, slot by slot. *)
Definition half_clean_slot (g : nat) (s : list Z) (p : nat) : Z :=
  if (p mod g <? g / 2)%nat
  then Z.min (s !!! p) (s !!! (p + g / 2)%nat)
  else Z.max (s !!! (p - g / 2)%nat) (s !!! p).

(** The buffer after one round. *)
Definition half_clean (g : nat) (s : list Z) : list Z :=
  map (half_clean_slot g s) (seq 0 (length s)).

(** The rounds with windows of 2^k, 2^(k-1), ..., 2 slots. *)
Fixpoint clean_rounds (k : nat) (s : list Z) : list Z :=
  match k with
  | O => s
  | Datatypes.S k' => clean_rounds k' (half_clean (2 ^ Datatypes.S k') s)
  end.

(** The merge of two runs of 2^k slots. *)
Definition bitonic_merge (k : nat) (l r : list Z) : list Z :=
  clean_rounds k (cross l r).

(** The comparators of a round: window [k], offset [i]. *)
Definition round_pairs (c h : nat) : list (nat * nat) :=
  flat_map (λ k, map (pair k) (seq 0 h)) (seq 0 c).

(** Four values alternate when the second and the fourth are both below
    the first and the third, or both above them.  A sequence none of whose
    subsequences of four slots alternates rises and falls at most once around
    the cycle. *)
Definition alternates (a b c d : Z) : Prop :=
  (b < a ∧ b < c ∧ d < a ∧ d < c) ∨ (a < b ∧ a < d ∧ c < b ∧ c < d).

(** Every slot of a window is at most every slot of the later windows. *)
Definition windows_ordered (g : nat) (s : list Z) : Prop :=
  ∀ k p q, (p < g * k)%nat → (g * k ≤ q)%nat → (q < length s)%nat →
    s !!! p ≤ s !!! q.

(** No four slots of one window alternate. *)
Definition windows_bitonic (g : nat) (s : list Z) : Prop :=
  ∀ k p1 p2 p3 p4,
    (g * k ≤ p1)%nat → (p1 < p2)%nat → (p2 < p3)%nat → (p3 < p4)%nat →
    (p4 < g * (k + 1))%nat → (p4 < length s)%nat →
    ¬ alternates (s !!! p1) (s !!! p2) (s !!! p3) (s !!! p4).

(** Sortedness, slot by slot. *)
Definition ascending (l : list Z) : Prop :=
  ∀ i j, (i ≤ j)%nat → (j < length l)%nat → l !!! i ≤ l !!! j.

(** The slot of [l ++ r] whose value the cross phase puts in slot [p], and
    the slot of the old buffer whose value a half-cleaner round puts in slot
    [p]. *)
Definition cross_source (l r : list Z) (p : nat) : nat :=
  let m := length l in
  if (p <? 2 * m)%nat then
    if (p <? m)%nat
    then if l !!! p <=? r !!! (m - 1 - p)%nat then p else (2 * m - 1 - p)%nat
    else if l !!! (2 * m - 1 - p)%nat <=? r !!! (p - m)%nat then p else (2 * m - 1 - p)%nat
  else p.

Definition half_clean_source (h : nat) (s : list Z) (p : nat) : nat :=
  if (p <? length s)%nat then
    if (p mod (2 * h) <? h)%nat
    then if s !!! p <=? s !!! (p + h)%nat then p else (p + h)%nat
    else if s !!! (p - h)%nat <=? s !!! p then p else (p - h)%nat
  else p.

(** Combining a sequence two slots at a time. *)
Fixpoint pairwise {A B} (F : A → A → B) (xs : list A) : list B :=
  match xs with
  | a :: b :: xs' => F a b :: pairwise F xs'
  | _ => []
  end.

(** Runs of [2^i] sorted slots that together hold the padded input. *)
Definition level_ok (i : nat) (padded : list Z) (runs : list (list Z)) : Prop :=
  Forall (λ run, length run = (2 ^ i)%nat ∧ Sorted Z.le run) runs
  ∧ concat runs ≡ₚ padded.

(** The value of a comparator future. *)
Definition two_sorter (a b : Z) : list Z := [Z.min a b; Z.max a b].

(** What [print_myvec] writes for a slot holding [x]. *)
Definition print_token (x : Z) : token := if x =? INT_MAX then Hash else Num x.

(** * Properties *)

(** ** Machine integers *)

Lemma wrap32_id z : is_int z → wrap32 z = z.
Proof.
  unfold is_int, INT_MIN, INT_MAX, wrap32. intros Hz.
  rewrite Z.mod_small by lia. lia.
Qed.

Lemma wrap32_is_int z : is_int (wrap32 z).
Proof.
  unfold is_int, INT_MIN, INT_MAX, wrap32.
  pose proof (Z.mod_pos_bound (z + 2 ^ 31) (2 ^ 32)). lia.
Qed.

Lemma wrap32_mod z : wrap32 (z mod 2 ^ 32) = wrap32 z.
Proof.
  unfold wrap32. f_equal.
  rewrite <- (Zplus_mod_idemp_l z). reflexivity.
Qed.

Lemma wrap64u_id z : 0 ≤ z < 2 ^ 64 → wrap64u z = z.
Proof. intros. unfold wrap64u. apply Z.mod_small. lia. Qed.

Lemma vec_get_nat {A} (v : list A) (i : nat) x :
  v !! i = Some x → vec_get v (Z.of_nat i) = Done x.
Proof.
  intros H. unfold vec_get. replace (0 <=? Z.of_nat i) with true by lia.
  by rewrite Nat2Z.id, H.
Qed.

Lemma vec_get_total (v : list Z) (i : nat) :
  (i < length v)%nat → vec_get v (Z.of_nat i) = Done (v !!! i).
Proof. intros H. apply vec_get_nat. by apply list_lookup_lookup_total_lt. Qed.

Lemma vec_set_nat {A} (v : list A) (i : nat) x :
  (i < length v)%nat → vec_set v (Z.of_nat i) x = Done (<[i := x]> v).
Proof.
  intros H. unfold vec_set.
  replace ((0 <=? Z.of_nat i) && (Z.of_nat i <? Z.of_nat (length v))) with true by lia.
  by rewrite Nat2Z.id.
Qed.

Lemma int_add_nat (a b : nat) :
  Z.of_nat (a + b) ≤ INT_MAX → int_add (Z.of_nat a) (Z.of_nat b) = Z.of_nat (a + b).
Proof.
  intros H. unfold int_add. rewrite wrap32_id; [lia|].
  unfold is_int, INT_MIN, INT_MAX in *. lia.
Qed.

Lemma int_sub_nat (a b : nat) :
  (b ≤ a)%nat → Z.of_nat a ≤ INT_MAX →
  int_sub (Z.of_nat a) (Z.of_nat b) = Z.of_nat (a - b).
Proof.
  intros Hb H. unfold int_sub. rewrite wrap32_id; [lia|].
  unfold is_int, INT_MIN, INT_MAX in *. lia.
Qed.

(** ** The comparator task *)

(** C5: on the pair (a, b) the comparator task returns the two-element
    sequence (min a b, max a b), whatever futures the task carries; for
    a = b both slots hold that value. *)
Theorem single_swap_task_min_max :
  (∀ (a b : Z) (fs : list Future),
      single_swap_task {| args := [a; b]; futures := fs |}
      = Done [Z.min a b; Z.max a b])
  ∧ (∀ a : Z, launch_single_swap a a = Done [a; a]).
Proof.
  split.
  - intros a b fs. reflexivity.
  - intros a. unfold launch_single_swap, single_swap_task. simpl.
    rewrite Z.min_id, Z.max_id. reflexivity.
Qed.

Lemma launch_single_swap_eq a b :
  launch_single_swap a b = Done [Z.min a b; Z.max a b].
Proof. reflexivity. Qed.

(** ** The sequence codec *)

Lemma Z_of_byte_of_Z z : Z_of_byte (byte_of_Z z) = z mod 256.
Proof.
  unfold Z_of_byte, byte_of_Z.
  pose proof (Z.mod_pos_bound z 256 eq_refl) as Hb.
  destruct (Byte.of_N (Z.to_N (z mod 256))) as [b|] eqn:E.
  - apply Byte.to_of_N in E. rewrite E. lia.
  - apply Byte.of_N_None_iff in E. lia.
Qed.

Lemma length_store_le n z : length (store_le n z) = n.
Proof. revert z. induction n as [|n IH]; intros z; simpl; [done|]. by rewrite IH. Qed.

Lemma take_store_le_app n z (l : list byte) :
  take n (store_le n z ++ l) = store_le n z.
Proof.
  rewrite <- (length_store_le n z) at 1. apply take_app_length.
Qed.

Lemma load_store_le n z : load_le (store_le n z) = z mod 256 ^ Z.of_nat n.
Proof.
  revert z. induction n as [|n IH]; intros z.
  - simpl. by rewrite Z.mod_1_r.
  - cbn [store_le load_le]. rewrite Z_of_byte_of_Z, IH.
    rewrite Nat2Z.inj_succ, Z.pow_succ_r by lia.
    rewrite Z.rem_mul_r by lia. reflexivity.
Qed.

Lemma load_store_int e : wrap32 (load_le (store_le 4 e)) = wrap32 e.
Proof.
  rewrite load_store_le.
  change (256 ^ Z.of_nat 4) with (2 ^ 32).
  apply wrap32_mod.
Qed.

Lemma map_wrap32_id s : Forall is_int s → map wrap32 s = s.
Proof.
  induction 1 as [|e s He _ IH]; [done|].
  cbn [map]. by rewrite wrap32_id, IH.
Qed.

Lemma load_store_size_t n : 0 ≤ n < 2 ^ 64 → load_le (store_le 8 n) = n.
Proof.
  intros Hn. rewrite load_store_le.
  change (256 ^ Z.of_nat 8) with (2 ^ 64). apply Z.mod_small. lia.
Qed.

Lemma length_elem_bytes s :
  Z.of_nat (length (elem_bytes s)) = sizeof_int * Z.of_nat (length s).
Proof.
  unfold elem_bytes. induction s as [|e s IH]; [done|].
  cbn [flat_map]. rewrite length_app, length_store_le. cbn [length].
  unfold sizeof_int in *. lia.
Qed.

Lemma serialize_loop s acc off :
  0 ≤ off → off + sizeof_int * Z.of_nat (length s) < 2 ^ 64 →
  fold_left
    (λ st e, (st.1 ++ store_le (Z.to_nat sizeof_int) e, wrap64u (st.2 + sizeof_int)))
    s (acc, off)
  = (acc ++ elem_bytes s, off + sizeof_int * Z.of_nat (length s)).
Proof.
  unfold sizeof_int. revert acc off.
  induction s as [|e s IH]; intros acc off Hoff Hfit.
  - simpl. rewrite app_nil_r. f_equal. lia.
  - cbn [fold_left length fst snd] in *.
    rewrite wrap64u_id by lia. rewrite IH by lia.
    unfold elem_bytes. cbn [flat_map]. rewrite <- app_assoc.
    f_equal. lia.
Qed.

Lemma legion_serialize_eq s :
  addressable s →
  legion_serialize s
  = (store_le 8 (Z.of_nat (length s)) ++ elem_bytes s,
     sizeof_size_t + sizeof_int * Z.of_nat (length s)).
Proof.
  unfold addressable, legion_serialize. intros Hs.
  rewrite serialize_loop by (unfold sizeof_size_t, sizeof_int in *; lia).
  unfold size. rewrite wrap64u_id; [done|].
  unfold sizeof_size_t, sizeof_int in *. lia.
Qed.

Lemma legion_buffer_size_loop s off :
  0 ≤ off → off + sizeof_int * Z.of_nat (length s) < 2 ^ 64 →
  fold_left (λ result (_ : Z), wrap64u (result + sizeof_int)) s off
  = off + sizeof_int * Z.of_nat (length s).
Proof.
  unfold sizeof_int. revert off.
  induction s as [|e s IH]; intros off Hoff Hfit.
  - simpl. lia.
  - cbn [fold_left length] in *. rewrite wrap64u_id by lia.
    rewrite IH by lia. lia.
Qed.

Lemma read_int_at pre e post :
  read_int (pre ++ store_le 4 e ++ post) (Z.of_nat (length pre)) = Done (wrap32 e).
Proof.
  unfold read_int, read_bytes, sizeof_int.
  rewrite !length_app, length_store_le.
  destruct ((0 <=? Z.of_nat (length pre)) &&
            (Z.of_nat (length pre) + 4 <=? Z.of_nat (length pre + (4 + length post)))) eqn:E.
  2:{ apply andb_false_iff in E as [E|E]; lia. }
  change (Z.to_nat 4) with 4%nat.
  rewrite Nat2Z.id, drop_app_length, take_store_le_app.
  cbn [mbind outcome_bind]. by rewrite load_store_int.
Qed.

Lemma read_elems_at s pre post :
  Z.of_nat (length pre) + sizeof_int * Z.of_nat (length s) < 2 ^ 64 →
  read_elems (length s) (pre ++ elem_bytes s ++ post) (Z.of_nat (length pre))
  = Done (map wrap32 s, Z.of_nat (length pre) + sizeof_int * Z.of_nat (length s)).
Proof.
  revert pre.
  induction s as [|e s IH]; intros pre Hfit.
  - cbn [length read_elems]. do 2 f_equal. unfold sizeof_int. lia.
  - cbn [length] in Hfit. cbn [length read_elems].
    unfold elem_bytes. cbn [flat_map]. fold (elem_bytes s).
    change (Z.to_nat sizeof_int) with 4%nat.
    rewrite <- app_assoc, read_int_at.
    cbn [mbind outcome_bind].
    rewrite wrap64u_id by (unfold sizeof_int in *; lia).
    replace (Z.of_nat (length pre) + sizeof_int)
      with (Z.of_nat (length (pre ++ store_le 4 e)))
      by (rewrite length_app, length_store_le; unfold sizeof_int; lia).
    rewrite (app_assoc pre). rewrite IH.
    + cbn [mbind outcome_bind fst snd map]. do 2 f_equal.
      rewrite length_app, length_store_le. unfold sizeof_int. lia.
    + rewrite length_app, length_store_le. unfold sizeof_int in *. lia.
Qed.

Lemma legion_deserialize_serialize s :
  addressable s →
  legion_deserialize (legion_serialize s).1
  = Done (map wrap32 s, sizeof_size_t + sizeof_int * Z.of_nat (length s)).
Proof.
  intros Ha. rewrite legion_serialize_eq by done. cbn [fst].
  pose proof Ha as Ha'. unfold addressable, sizeof_size_t, sizeof_int in Ha'.
  unfold legion_deserialize, read_size_t, read_bytes, sizeof_size_t.
  rewrite length_app, length_store_le.
  destruct ((0 <=? 0) && (0 + 8 <=? Z.of_nat (8 + length (elem_bytes s)))) eqn:E.
  2:{ apply andb_false_iff in E as [E|E]; lia. }
  change (Z.to_nat 8) with 8%nat. change (Z.to_nat 0) with 0%nat.
  rewrite drop_0, take_store_le_app.
  cbn [mbind outcome_bind]. rewrite load_store_size_t by lia.
  rewrite Nat2Z.id.
  pose proof (read_elems_at s (store_le 8 (Z.of_nat (length s))) []) as H.
  rewrite length_store_le, app_nil_r in H. apply H.
  unfold sizeof_int. lia.
Qed.

(** C3: decoding the bytes written by the serializer gives back the
    sequence, for every sequence of [int]s whose image fits the address
    space; the empty sequence and sequences holding INT_MAX are instances. *)
Theorem decode_encode (s : MyVec) :
  Forall is_int s → addressable s → decode (encode s) = Done s.
Proof.
  intros Hs Ha. unfold decode, encode.
  rewrite legion_deserialize_serialize by done.
  cbn [mbind outcome_bind fst]. by rewrite map_wrap32_id.
Qed.

Lemma decode_encode_witness :
  Forall is_int [5; INT_MAX; -7; INT_MIN] ∧ addressable [5; INT_MAX; -7; INT_MIN]
  ∧ decode (encode [5; INT_MAX; -7; INT_MIN]) = Done [5; INT_MAX; -7; INT_MIN].
Proof.
  assert (H1 : Forall is_int [5; INT_MAX; -7; INT_MIN])
    by (repeat constructor; unfold INT_MAX, INT_MIN; lia).
  assert (H2 : addressable [5; INT_MAX; -7; INT_MIN])
    by (unfold addressable, sizeof_size_t, sizeof_int; simpl; lia).
  split; [exact H1|]. split; [exact H2|].
  exact (decode_encode _ H1 H2).
Defined.

Example decode_encode_empty : decode (encode []) = Done [].
Proof. reflexivity. Qed.

Example decode_encode_sentinels :
  decode (encode [INT_MAX; INT_MAX]) = Done [INT_MAX; INT_MAX].
Proof. reflexivity. Qed.

(** C10: the three codec functions agree on the encoded size: the serializer
    writes [legion_buffer_size s] bytes and returns that count, the
    deserializer returns it too, and it is sizeof(size_t) + |s| * sizeof(int). *)
Theorem codec_sizes_agree (s : MyVec) :
  addressable s →
  legion_buffer_size s = sizeof_size_t + Z.of_nat (length s) * sizeof_int
  ∧ Z.of_nat (length (legion_serialize s).1) = legion_buffer_size s
  ∧ (legion_serialize s).2 = legion_buffer_size s
  ∧ ∃ v, legion_deserialize (legion_serialize s).1 = Done (v, legion_buffer_size s).
Proof.
  intros Ha.
  assert (Hsz : legion_buffer_size s
                = sizeof_size_t + sizeof_int * Z.of_nat (length s)).
  { unfold legion_buffer_size. apply legion_buffer_size_loop; [done|apply Ha]. }
  rewrite Hsz. split; [lia|].
  rewrite legion_deserialize_serialize, legion_serialize_eq by done.
  cbn [fst snd]. split; [|split; [done|by eexists]].
  rewrite length_app, length_store_le, Nat2Z.inj_add, length_elem_bytes.
  reflexivity.
Qed.

Lemma codec_sizes_agree_witness :
  addressable [3; 1; 2]
  ∧ legion_buffer_size [3; 1; 2] = 20
  ∧ (legion_serialize [3; 1; 2]).2 = 20.
Proof.
  assert (H : addressable [3; 1; 2])
    by (unfold addressable, sizeof_size_t, sizeof_int; simpl; lia).
  split; [exact H|].
  destruct (codec_sizes_agree [3; 1; 2] H) as (H1 & _ & H3 & _).
  split; [exact H1|]. rewrite H3. exact H1.
Defined.

(** ** Loops as folds

    A counting loop whose budget suffices is a monadic fold of its body over
    the values its counter takes. *)

Lemma for_unfold {S} fuel init cond step (body : Z → S → outcome S) s :
  for_ (Datatypes.S fuel) init cond step body s
  = if cond init then s' ← body init s; for_ fuel (step init) cond step body s'
    else Done s.
Proof.
  unfold for_. cbn [loop fst snd].
  destruct (cond init); [|done].
  destruct (body init s); done.
Qed.

Lemma foldM_app {A S} (body : A → S → outcome S) l1 l2 s :
  foldM body (l1 ++ l2) s = s' ← foldM body l1 s; foldM body l2 s'.
Proof.
  revert s. induction l1 as [|x l1 IH]; intros s; [done|].
  cbn [foldM app]. destruct (body x s); cbn [mbind outcome_bind]; auto.
Qed.

Lemma counter_values_S init step count :
  counter_values init step (Datatypes.S count)
  = init :: counter_values (init + step) step count.
Proof.
  unfold counter_values. cbn [seq map]. f_equal; [lia|].
  rewrite <- fmap_S_seq. rewrite <- list_fmap_compose.
  apply map_ext. intros k. cbn. lia.
Qed.

Lemma for_counter {S} count fuel init step n (body : Z → S → outcome S) s :
  0 < step → (count < fuel)%nat →
  INT_MIN ≤ init → init + step * Z.of_nat count ≤ INT_MAX →
  n ≤ init + step * Z.of_nat count →
  (count ≠ 0%nat → init + step * (Z.of_nat count - 1) < n) →
  for_ fuel init (λ v, v <? n) (λ v, int_add v step) body s
  = foldM body (counter_values init step count) s.
Proof.
  intros Hstep. revert fuel init s.
  induction count as [|count IH]; intros fuel init s Hfuel Hlo Hhi Hn Hlast.
  - destruct fuel as [|fuel]; [lia|]. rewrite for_unfold.
    replace (init <? n) with false by lia. done.
  - destruct fuel as [|fuel]; [lia|]. rewrite for_unfold.
    replace (init <? n) with true by nia.
    rewrite counter_values_S. cbn [foldM].
    destruct (body init s) as [s'| | |]; cbn [mbind outcome_bind]; try done.
    unfold int_add. rewrite wrap32_id by (unfold is_int; nia).
    apply IH; nia.
Qed.

(** Loops that push one result per iteration. *)
Lemma foldM_push {A B} (body : A → list B → outcome (list B)) (f : A → B) xs acc :
  (∀ x acc', x ∈ xs → body x acc' = Done (acc' ++ [f x])) →
  foldM body xs acc = Done (acc ++ map f xs).
Proof.
  revert acc. induction xs as [|x xs IH]; intros acc Hbody.
  - cbn. by rewrite app_nil_r.
  - cbn [foldM map]. rewrite Hbody by left. cbn [mbind outcome_bind].
    rewrite IH; [by rewrite <- app_assoc|].
    intros y acc' Hy. apply Hbody. by right.
Qed.

(** Nested loops run through the pairs of their counters. *)
Lemma foldM_nested {A B S} (body : A → B → S → outcome S) outer inner s :
  foldM (λ a s', foldM (body a) inner s') outer s
  = foldM (λ ab s', body ab.1 ab.2 s') (flat_map (λ a, map (pair a) inner) outer) s.
Proof.
  revert s. induction outer as [|a outer IH]; intros s; [done|].
  cbn [foldM flat_map]. rewrite foldM_app.
  assert (E : foldM (λ ab s', body ab.1 ab.2 s') (map (pair a) inner) s
              = foldM (body a) inner s).
  { clear. revert s. induction inner as [|b inner IH]; intros s; [done|].
    cbn [foldM map fst snd]. destruct (body a b s); cbn [mbind outcome_bind]; auto. }
  rewrite E. destruct (foldM (body a) inner s); cbn [mbind outcome_bind]; auto.
Qed.

Lemma foldM_ext {A S} (body1 body2 : A → S → outcome S) xs s :
  (∀ x s', x ∈ xs → body1 x s' = body2 x s') →
  foldM body1 xs s = foldM body2 xs s.
Proof.
  revert s. induction xs as [|x xs IH]; intros s H; [done|].
  cbn [foldM]. rewrite H by left.
  destruct (body2 x s); cbn [mbind outcome_bind]; try done.
  apply IH. intros y s' Hy. apply H. by right.
Qed.

(** ** Buffers written slot by slot *)

Lemma length_apply_writes ws s : length (apply_writes ws s) = length s.
Proof.
  revert s. induction ws as [|w ws IH]; intros s; [done|].
  cbn. unfold apply_writes in IH. by rewrite IH, length_insert.
Qed.

Lemma apply_writes_app ws1 ws2 s :
  apply_writes (ws1 ++ ws2) s = apply_writes ws2 (apply_writes ws1 s).
Proof. unfold apply_writes. apply foldl_app. Qed.

(** When the value stored in a slot depends on the slot only, the order of
    the writes does not matter. *)
Lemma apply_writes_lookup (F : nat → Z) ws s p :
  Forall (λ w, w.2 = F w.1) ws →
  apply_writes ws s !! p
  = if decide (p ∈ ws.*1) then (λ _, F p) <$> s !! p else s !! p.
Proof.
  revert s. induction ws as [|[k v] ws IH]; intros s Hws.
  - cbn. destruct (decide (p ∈ [])) as [H|H]; [by apply elem_of_nil in H|done].
  - apply Forall_cons in Hws as [Hv Hws]. cbn in Hv. subst v.
    change (apply_writes ((k, F k) :: ws) s) with (apply_writes ws (<[k := F k]> s)).
    rewrite IH by done. cbn [fmap list_fmap fst].
    destruct (decide (p = k)) as [->|Hpk].
    + destruct (decide (k ∈ k :: ws.*1)) as [_|H]; [|exfalso; apply H; left].
      destruct (decide (k < length s)%nat) as [Hlt|Hge].
      * rewrite list_lookup_insert_eq by done.
        destruct (lookup_lt_is_Some_2 s k Hlt) as [x Hx]. rewrite Hx.
        by destruct (decide (k ∈ ws.*1)).
      * rewrite list_insert_ge by lia.
        rewrite (lookup_ge_None_2 s k) by lia. by destruct (decide (k ∈ ws.*1)).
    + rewrite list_lookup_insert_ne by done.
      destruct (decide (p ∈ ws.*1)) as [H|H];
        destruct (decide (p ∈ k :: ws.*1)) as [H'|H']; try done.
      * exfalso. apply H'. by right.
      * exfalso. apply elem_of_cons in H' as [?|?]; done.
Qed.

(** Loops whose body stores into the buffer. *)
Lemma foldM_writes {A} (body : A → list Z → outcome (list Z))
    (W : A → list (nat * Z)) xs s :
  (∀ x s', x ∈ xs → length s' = length s → body x s' = Done (apply_writes (W x) s')) →
  foldM body xs s = Done (apply_writes (flat_map W xs) s).
Proof.
  revert s. induction xs as [|x xs IH]; intros s Hbody; [done|].
  cbn [foldM flat_map]. rewrite Hbody by (done || left).
  cbn [mbind outcome_bind]. rewrite apply_writes_app. apply IH.
  intros y s' Hy Hlen. apply Hbody; [by right|].
  by rewrite Hlen, length_apply_writes.
Qed.

(** The same with a counter [j] that indexes the results of the launch phase. *)
Lemma foldM_writes_counter {A} (body : A → Z * list Z → outcome (Z * list Z))
    (W : A → list (nat * Z)) xs s :
  (∀ k x s', xs !! k = Some x → length s' = length s →
     body x (Z.of_nat k, s') = Done (Z.of_nat (Datatypes.S k), apply_writes (W x) s')) →
  foldM body xs (0, s) = Done (Z.of_nat (length xs), apply_writes (flat_map W xs) s).
Proof.
  intros Hbody.
  assert (G : ∀ ys k s', xs = take k xs ++ ys → length (take k xs) = k →
    length s' = length s →
    foldM body ys (Z.of_nat k, s')
    = Done (Z.of_nat (k + length ys), apply_writes (flat_map W ys) s')).
  { induction ys as [|y ys IH]; intros k s' Hxs Hk Hlen.
    - cbn. do 3 f_equal. lia.
    - cbn [foldM flat_map length].
      rewrite (Hbody k y s'); [|rewrite Hxs; rewrite lookup_app_r by lia;
        by rewrite Hk, Nat.sub_diag|done].
      cbn [mbind outcome_bind]. rewrite apply_writes_app.
      assert (Htk : take (Datatypes.S k) xs = take k xs ++ [y]).
      { rewrite Hxs at 1. rewrite take_app_ge by lia.
        rewrite Hk. replace (Datatypes.S k - k)%nat with 1%nat by lia. done. }
      rewrite (IH (Datatypes.S k)).
      + do 3 f_equal. lia.
      + rewrite Htk, <- app_assoc. exact Hxs.
      + rewrite Htk, length_app, Hk. cbn. lia.
      + by rewrite length_apply_writes. }
  specialize (G xs 0%nat s). rewrite take_0 in G.
  change (Z.of_nat 0) with 0 in G. rewrite G; done.
Qed.

(** ** Input handling *)

Lemma length_positional tokens : (length (positional tokens) ≤ length tokens)%nat.
Proof.
  assert (G : ∀ n tokens, (length tokens < n)%nat →
              (length (positional tokens) ≤ length tokens)%nat).
  { induction n as [|n IH]; intros toks Hn; [lia|].
    destruct toks as [|t rest]; [cbn; lia|].
    cbn [positional]. destruct (starts_with_dash t).
    - destruct rest as [|t2 rest']; [cbn; lia|].
      specialize (IH rest'). cbn [length] in *. lia.
    - specialize (IH rest). cbn [length] in *. lia. }
  apply (G (Datatypes.S (length tokens))). lia.
Qed.

Section handle_inputs.
Variable args : list string.
Hypothesis args_fit : Z.of_nat (length args) + 2 ≤ INT_MAX.

Lemma inputs_cond_true i k nums :
  i < Z.of_nat (Datatypes.S (length args)) →
  inputs_cond (command_line args) (i, k, nums) = true.
Proof. intros H. unfold inputs_cond. cbn [fst snd command_line argc]. lia. Qed.

Lemma inputs_cond_false i k nums :
  Z.of_nat (Datatypes.S (length args)) ≤ i →
  inputs_cond (command_line args) (i, k, nums) = false.
Proof. intros H. unfold inputs_cond. cbn [fst snd command_line argc]. lia. Qed.

(** One iteration at the token [t] that follows the tokens [pre]. *)
Lemma inputs_body_at pre t rest k nums :
  args = pre ++ t :: rest → (k ≤ length pre)%nat →
  inputs_body (command_line args) (Z.of_nat (Datatypes.S (length pre)), Z.of_nat k, nums)
  = if starts_with_dash t
    then Done (Z.of_nat (Datatypes.S (length pre)) + 2, Z.of_nat k, nums)
    else Done (Z.of_nat (Datatypes.S (length pre)) + 1, Z.of_nat (Datatypes.S k),
               nums ++ [atoi t]).
Proof.
  intros Hargs Hk.
  assert (Hlen : length args = (length pre + Datatypes.S (length rest))%nat)
    by (by rewrite Hargs, length_app).
  unfold INT_MAX in args_fit.
  unfold inputs_body. cbn [command_line argv].
  rewrite (vec_get_nat _ _ t).
  2:{ change (args !! length pre = Some t).
      rewrite Hargs, lookup_app_r by lia. by rewrite Nat.sub_diag. }
  cbn [mbind outcome_bind]. unfold int_add.
  destruct (starts_with_dash t).
  - rewrite (wrap32_id (Z.of_nat (Datatypes.S (length pre)) + 1))
      by (unfold is_int, INT_MIN, INT_MAX; lia).
    rewrite wrap32_id by (unfold is_int, INT_MIN, INT_MAX; lia).
    do 3 f_equal. lia.
  - rewrite !wrap32_id by (unfold is_int, INT_MIN, INT_MAX; lia).
    do 3 f_equal. lia.
Qed.

Lemma handle_inputs_loop fuel pre rest k nums :
  args = pre ++ rest → (length rest < fuel)%nat → (k ≤ length pre)%nat →
  ∃ i', loop fuel (inputs_cond (command_line args)) (inputs_body (command_line args))
          (Z.of_nat (Datatypes.S (length pre)), Z.of_nat k, nums)
        = Done (i', Z.of_nat (k + length (positional rest)),
                nums ++ map atoi (positional rest)).
Proof.
  revert pre rest k nums.
  induction fuel as [|fuel IH]; intros pre rest k nums Hargs Hfuel Hk; [lia|].
  assert (Hlen : length args = (length pre + length rest)%nat)
    by (by rewrite Hargs, length_app).
  destruct rest as [|t rest]; cbn [loop length] in *.
  - rewrite inputs_cond_false by lia. eexists.
    cbn [positional map length]. by rewrite app_nil_r, Nat.add_0_r.
  - rewrite inputs_cond_true by lia.
    rewrite (inputs_body_at pre t rest) by done.
    cbn [positional]. destruct (starts_with_dash t); cbn [mbind outcome_bind].
    + destruct rest as [|t2 rest]; cbn [length] in *.
      * destruct fuel as [|fuel]; [lia|]. cbn [loop].
        rewrite inputs_cond_false by lia. eexists.
        cbn [map length]. by rewrite app_nil_r, Nat.add_0_r.
      * destruct (IH (pre ++ [t; t2]) rest k nums) as [i' Hi'].
        { by rewrite <- app_assoc. }
        { lia. }
        { rewrite length_app. lia. }
        exists i'. rewrite <- Hi'. do 3 f_equal.
        rewrite length_app. cbn [length]. lia.
    + destruct (IH (pre ++ [t]) rest (Datatypes.S k) (nums ++ [atoi t])) as [i' Hi'].
      { by rewrite <- app_assoc. }
      { lia. }
      { rewrite length_app. cbn [length]. lia. }
      exists i'.
      replace (Z.of_nat (Datatypes.S (length pre)) + 1)
        with (Z.of_nat (Datatypes.S (length (pre ++ [t]))))
        by (rewrite length_app; cbn [length]; lia).
      rewrite Hi'. cbn [map length]. rewrite <- app_assoc. cbn [app].
      do 3 f_equal. lia.
Qed.

Lemma handle_inputs_eq :
  handle_inputs (command_line args)
  = Done (Z.of_nat (length (positional args)), map atoi (positional args)).
Proof.
  unfold handle_inputs.
  destruct (handle_inputs_loop (budget (argc (command_line args))) [] args 0 [])
    as [i' Hi'].
  - done.
  - unfold budget. cbn [command_line argc]. lia.
  - cbn. lia.
  - cbn [length] in Hi'. change (Z.of_nat 0) with 0 in Hi'.
    change (Z.of_nat 1) with 1 in Hi'. rewrite Hi'. done.
Qed.
End handle_inputs.

(** C9: scanning the arguments from the left, a token that begins with '-'
    is skipped together with the one token after it, and the remaining
    tokens are taken, in order, as the input integers. *)
Theorem handle_inputs_skips_flag_pairs (args : list string) :
  Z.of_nat (length args) + 2 ≤ INT_MAX →
  handle_inputs (command_line args)
  = Done (Z.of_nat (length (positional args)), map atoi (positional args))
  ∧ (∀ flag value rest, starts_with_dash flag = true →
       positional (flag :: value :: rest) = positional rest)
  ∧ (∀ flag, starts_with_dash flag = true → positional [flag] = [])
  ∧ (∀ token rest, starts_with_dash token = false →
       positional (token :: rest) = token :: positional rest).
Proof.
  intros Hfit. split; [by apply handle_inputs_eq|].
  split; [|split].
  - intros flag value rest Hflag. cbn [positional]. by rewrite Hflag.
  - intros flag Hflag. cbn [positional]. by rewrite Hflag.
  - intros token rest Htoken. cbn [positional]. by rewrite Htoken.
Qed.

Lemma handle_inputs_skips_flag_pairs_witness :
  Z.of_nat (length ["-ll:cpu"; "4"; "9"; "-x"; "-y"; "8"; "-z"]%string) + 2 ≤ INT_MAX
  ∧ handle_inputs (command_line ["-ll:cpu"; "4"; "9"; "-x"; "-y"; "8"; "-z"]%string)
    = Done (2, [9; 8]).
Proof.
  assert (H : Z.of_nat (length ["-ll:cpu"; "4"; "9"; "-x"; "-y"; "8"; "-z"]%string) + 2
              ≤ INT_MAX) by (unfold INT_MAX; simpl; lia).
  split; [exact H|].
  exact (proj1 (handle_inputs_skips_flag_pairs _ H)).
Defined.

(** A value that itself begins with '-' is skipped as the value of the flag
    before it and does not start a pair of its own; a trailing flag has no
    value to skip. *)
Example handle_inputs_flag_as_value :
  handle_inputs (command_line ["-a"; "-b"; "3"; "-c"]%string) = Done (1, [3]).
Proof. reflexivity. Qed.

Lemma digits_no_digit s : first_is_digit s = false → digits 0 s = 0.
Proof. destruct s as [|c s]; cbn; [done|]. by intros ->. Qed.

Lemma atoi_no_number s : leading_number s = false → atoi s = 0.
Proof.
  unfold leading_number, atoi, strtol.
  destruct (skip_space s) as [|c s'] eqn:E; [done|].
  destruct (Ascii.eqb_spec c "-"%char) as [->|Hm].
  { cbn. intros H. by rewrite digits_no_digit. }
  destruct (Ascii.eqb_spec c "+"%char) as [->|Hp].
  { cbn. intros H. by rewrite digits_no_digit. }
  cbn [orb]. intros H.
  assert (Hd : digits 0 (String c s') = 0) by (cbn; by rewrite H).
  destruct c as [[] [] [] [] [] [] [] []]; try (by rewrite Hd); congruence.
Qed.

Lemma positional_no_flags args :
  Forall (λ a, starts_with_dash a = false) args → positional args = args.
Proof.
  induction 1 as [|a args Ha _ IH]; [done|].
  cbn [positional]. by rewrite Ha, IH.
Qed.

(** C7 as stated fails: a non-numeric argument is read as 0 and sorted with
    the rest. *)
Lemma non_numeric_argument_is_sorted :
  numeric "abc" = false
  ∧ handle_inputs (command_line ["abc"; "3"]%string) = Done (2, [0; 3])
  ∧ top_level_task (command_line ["abc"; "3"]%string) = Done [Num 0; Num 3].
Proof. repeat split; vm_compute; reflexivity. Qed.

(** ** The padding normalizer *)

(** [t & -t] is the lowest set bit of [t]. *)
Lemma land_odd_neg q : Z.land (2 * q + 1) (- (2 * q + 1)) = 1.
Proof.
  replace (- (2 * q + 1)) with (2 * Z.lnot q + 1) by (unfold Z.lnot; lia).
  apply Z.bits_inj'. intros n Hn.
  rewrite Z.land_spec.
  destruct (Z.eq_dec n 0) as [->|Hn0].
  - rewrite !Z.testbit_odd_0. reflexivity.
  - replace n with (Z.succ (n - 1)) by lia.
    rewrite !Z.testbit_odd_succ by lia.
    rewrite Z.lnot_spec by lia.
    replace 1 with (2 * 0 + 1) by lia. rewrite Z.testbit_odd_succ by lia.
    rewrite Z.testbit_0_l. apply andb_negb_r.
Qed.

Lemma lowbit_eq j q : 0 ≤ j → Z.land (2 ^ j * (2 * q + 1)) (- (2 ^ j * (2 * q + 1))) = 2 ^ j.
Proof.
  intros Hj.
  replace (- (2 ^ j * (2 * q + 1))) with (- (2 * q + 1) * 2 ^ j) by lia.
  rewrite (Z.mul_comm (2 ^ j)).
  rewrite <- !Z.shiftl_mul_pow2 by done.
  rewrite <- Z.shiftl_land, land_odd_neg.
  rewrite Z.shiftl_mul_pow2 by done. lia.
Qed.

Lemma odd_part (p : positive) : ∃ j q, Z.pos p = 2 ^ j * (2 * q + 1) ∧ 0 ≤ j ∧ 0 ≤ q.
Proof.
  induction p as [p _|p (j & q & Hp & Hj & Hq)|].
  - exists 0, (Z.pos p). rewrite Pos2Z.inj_xI. lia.
  - exists (j + 1), q. rewrite Pos2Z.inj_xO, Hp, Z.pow_add_r by lia. lia.
  - exists 0, 0. done.
Qed.

Lemma pow2_le_mono a b : 0 ≤ a ≤ b → 2 ^ a ≤ 2 ^ b.
Proof. intros. apply Z.pow_le_mono_r; lia. Qed.

Lemma pow2_lt_inv a b : 0 ≤ a → 0 ≤ b → 2 ^ a < 2 ^ b → a < b.
Proof. intros Ha Hb H. apply (Z.pow_lt_mono_r_iff 2); lia. Qed.

Lemma next_total_loop fuel j q k :
  0 ≤ j → 0 ≤ q → 0 ≤ k ≤ 30 →
  2 ^ j * (2 * q + 1) ≤ 2 ^ k →
  (k = 0 ∨ 2 ^ (k - 1) < 2 ^ j * (2 * q + 1)) →
  (Z.to_nat (k - j) < fuel)%nat →
  loop fuel
    (λ num_total, negb (num_total =? int_and num_total (int_neg num_total)))
    (λ num_total, Done (int_add num_total (int_and num_total (int_neg num_total))))
    (2 ^ j * (2 * q + 1))
  = Done (2 ^ k).
Proof.
  revert j q. induction fuel as [|fuel IH]; intros j q Hj Hq Hk Hle Hgt Hfuel; [lia|].
  assert (H30 : 2 ^ k ≤ 2 ^ 30) by (apply pow2_le_mono; lia).
  assert (Hpj : 0 < 2 ^ j) by (apply Z.pow_pos_nonneg; lia).
  cbn [loop]. unfold int_and, int_neg, int_add.
  rewrite (wrap32_id (- _)) by (unfold is_int, INT_MIN, INT_MAX; nia).
  rewrite lowbit_eq by done.
  destruct (Z.eq_dec q 0) as [->|Hq0].
  - replace (2 ^ j * (2 * 0 + 1)) with (2 ^ j) in * by lia.
    rewrite Z.eqb_refl. cbn [negb]. f_equal.
    destruct (Z.eq_dec k 0) as [->|Hk0].
    + change (2 ^ 0) with 1 in *.
      destruct (Z.eq_dec j 0) as [->|Hj0]; [done|].
      assert (2 ^ 1 ≤ 2 ^ j) by (apply pow2_le_mono; lia). lia.
    + destruct Hgt as [->|Hgt]; [done|].
      apply pow2_lt_inv in Hgt; [|lia|lia].
      destruct (Z.eq_dec j k) as [->|Hjk]; [done|].
      assert (2 ^ k < 2 ^ j); [|lia].
      apply Z.pow_lt_mono_r; lia.
  - replace (2 ^ j * (2 * q + 1) =? 2 ^ j) with false by nia.
    cbn [negb mbind outcome_bind].
    assert (Hjk : j < k).
    { apply pow2_lt_inv; [done|lia|]. nia. }
    (* both sides are multiples of 2 ^ j, so adding 2 ^ j stays below 2 ^ k *)
    assert (Hk' : 2 ^ k = 2 ^ j * 2 ^ (k - j)).
    { rewrite <- Z.pow_add_r by lia. f_equal. lia. }
    assert (Heven : 2 ^ (k - j) = 2 * 2 ^ (k - j - 1)).
    { rewrite <- Z.pow_succ_r by lia. f_equal. lia. }
    assert (Hodd : 2 * q + 1 ≤ 2 ^ (k - j)).
    { apply (Z.mul_le_mono_pos_l _ _ (2 ^ j)); lia. }
    assert (Hnext : 2 ^ j * (2 * q + 1) + 2 ^ j ≤ 2 ^ k).
    { rewrite Hk'. replace (2 ^ j * (2 * q + 1) + 2 ^ j) with (2 ^ j * (2 * q + 2)) by lia.
      apply Z.mul_le_mono_nonneg_l; lia. }
    rewrite wrap32_id by (unfold is_int, INT_MIN, INT_MAX; nia).
    destruct (odd_part (Z.to_pos (q + 1))) as (a & q' & Hq' & Ha & Hq'0).
    rewrite Z2Pos.id in Hq' by lia.
    replace (2 ^ j * (2 * q + 1) + 2 ^ j) with (2 ^ (j + 1 + a) * (2 * q' + 1)).
    2:{ rewrite !Z.pow_add_r by lia. nia. }
    assert (Heq : 2 ^ (j + 1 + a) * (2 * q' + 1) = 2 ^ j * (2 * q + 1) + 2 ^ j).
    { rewrite !Z.pow_add_r by lia. nia. }
    apply IH; try lia.
Qed.

Lemma next_total_eq n :
  1 ≤ n ≤ 2 ^ 30 → ∃ p, next_total n = Done p ∧ is_next_pow2 n p.
Proof.
  intros Hn.
  destruct (odd_part (Z.to_pos n)) as (j & q & Hjq & Hj & Hq).
  rewrite Z2Pos.id in Hjq by lia.
  set (k := Z.log2_up n).
  assert (Hk0 : 0 ≤ k) by apply Z.log2_up_nonneg.
  assert (Hle : n ≤ 2 ^ k).
  { destruct (Z.eq_dec n 1) as [->|]; [done|]. apply Z.log2_up_spec. lia. }
  assert (Hgt : k = 0 ∨ 2 ^ (k - 1) < n).
  { destruct (Z.eq_dec n 1) as [->|]; [by left|]. right.
    replace (k - 1) with (Z.pred k) by lia. apply Z.log2_up_spec. lia. }
  assert (Hk30 : k ≤ 30).
  { apply Z.log2_up_le_pow2; lia. }
  exists (2 ^ k). split.
  - unfold next_total. rewrite Hjq. apply next_total_loop; try lia.
    unfold budget. lia.
  - exists k. repeat split; try done.
    intros k' Hk' Hn'. destruct (Z.eq_dec k 0) as [Hk00|Hk00].
    + rewrite Hk00. change (2 ^ 0) with 1. pose proof (Z.pow_pos_nonneg 2 k'). lia.
    + destruct Hgt as [?|Hgt]; [done|].
      apply pow2_le_mono. split; [done|].
      assert (k - 1 < k'); [|lia].
      apply pow2_lt_inv; lia.
Qed.

Lemma normalize_eq (nums : list Z) :
  1 ≤ Z.of_nat (length nums) ≤ 2 ^ 30 →
  ∃ p, is_next_pow2 (Z.of_nat (length nums)) p
       ∧ normalize (Z.of_nat (length nums)) nums
         = Done (p, nums ++ replicate (Z.to_nat p - length nums) INT_MAX).
Proof.
  intros Hn.
  destruct (next_total_eq _ Hn) as (p & Hp & Hnext).
  exists p. split; [done|].
  destruct Hnext as (k & Hk & -> & Hle & Hmin).
  assert (H30 : 2 ^ k ≤ 2 ^ 30).
  { apply Hmin; lia. }
  unfold normalize. rewrite Hp. cbn [mbind outcome_bind].
  rewrite (for_counter (Z.to_nat (2 ^ k) - length nums)); unfold INT_MIN, INT_MAX, budget;
    try lia.
  rewrite (foldM_push _ (λ _, INT_MAX)) by done.
  cbn [mbind outcome_bind]. do 3 f_equal.
  unfold counter_values. rewrite map_map.
  generalize (Z.to_nat (2 ^ k) - length nums)%nat. intros c.
  generalize 0%nat. induction c as [|c IH]; intros s; [done|].
  cbn [seq map replicate]. by rewrite IH.
Qed.

(** C4: for a raw input of N integers, 1 ≤ N ≤ 2^30 (so that the padded
    length is an [int]), the normalizer produces a sequence whose length is
    the smallest power of two that is at least N, whose slots below N are the
    raw input and whose slots from N on hold INT_MAX; when N is a power of
    two nothing is appended. *)
Theorem normalize_pads_to_next_pow2 (nums : list Z) :
  1 ≤ Z.of_nat (length nums) ≤ 2 ^ 30 →
  ∃ p padded,
    normalize (Z.of_nat (length nums)) nums = Done (p, padded)
    ∧ is_next_pow2 (Z.of_nat (length nums)) p
    ∧ Z.of_nat (length padded) = p
    ∧ (∀ i, (i < length nums)%nat → padded !! i = nums !! i)
    ∧ (∀ i, (length nums ≤ i < length padded)%nat → padded !! i = Some INT_MAX)
    ∧ ((∃ k, 0 ≤ k ∧ Z.of_nat (length nums) = 2 ^ k) → padded = nums).
Proof.
  intros Hn. destruct (normalize_eq nums Hn) as (p & Hp & Hnorm).
  exists p, (nums ++ replicate (Z.to_nat p - length nums) INT_MAX).
  split; [done|]. split; [done|].
  destruct Hp as (k & Hk & -> & Hle & Hmin).
  split; [|split; [|split]].
  - rewrite length_app, length_replicate. lia.
  - intros i Hi. by rewrite lookup_app_l.
  - intros i [Hi1 Hi2]. rewrite length_app, length_replicate in Hi2.
    rewrite lookup_app_r by done. apply lookup_replicate_2. lia.
  - intros (k' & Hk' & Hpow).
    assert (2 ^ k ≤ 2 ^ k') by (apply Hmin; lia).
    replace (Z.to_nat (2 ^ k) - length nums)%nat with 0%nat by lia.
    cbn. by rewrite app_nil_r.
Qed.

Lemma normalize_pads_to_next_pow2_witness :
  1 ≤ Z.of_nat (length [5; 4; 3; 2; 1]) ≤ 2 ^ 30
  ∧ ∃ p padded, normalize 5 [5; 4; 3; 2; 1] = Done (p, padded)
                ∧ Z.of_nat (length padded) = p.
Proof.
  assert (H : 1 ≤ Z.of_nat (length [5; 4; 3; 2; 1]) ≤ 2 ^ 30) by (simpl; lia).
  split; [exact H|].
  destruct (normalize_pads_to_next_pow2 [5; 4; 3; 2; 1] H)
    as (p & padded & H1 & _ & H2 & _).
  exists p, padded. split; [exact H1|exact H2].
Defined.

Example normalize_five :
  normalize 5 [5; 4; 3; 2; 1] = Done (8, [5; 4; 3; 2; 1; INT_MAX; INT_MAX; INT_MAX]).
Proof. reflexivity. Qed.

(** C6 as stated fails: for the input [5] no sentinel is appended, and the
    top-level task does not print [5]. *)
Lemma single_input_not_padded :
  normalize 1 [5] ≠ Done (2, [5; INT_MAX])
  ∧ top_level_task (command_line ["5"%string]) ≠ Done [Num 5].
Proof. split; intros H; vm_compute in H; discriminate H. Qed.

(** C6, amended: for the single-element input [5] the normalizer leaves the
    sequence as [5], of total length 1: one is already a power of two. *)
Theorem single_input_stays_single :
  handle_inputs (command_line ["5"%string]) = Done (1, [5])
  ∧ normalize 1 [5] = Done (1, [5]).
Proof. split; reflexivity. Qed.

(** C1 fails on a single input: the padded length is 1, round 0 reads
    [nums[1]] of a one-element vector, and whatever value [g] that read
    yields, the two-slot result of the comparator fails the task's own
    [assert(sorted.size() == num_total)]. *)
Theorem single_input_reads_out_of_range :
  handle_inputs (command_line ["5"%string]) = Done (1, [5])
  ∧ normalize 1 [5] = Done (1, [5])
  ∧ first_swaps 1 [5] = Undef
  ∧ top_level_task (command_line ["5"%string]) = Undef
  ∧ ∀ g, (res ← launch_single_swap 5 g; after_first_swaps 1 1 [res]) = Abort.
Proof. repeat split; reflexivity. Qed.

(** ** The merge task as a function on lists *)

Lemma foldM_fmap {A B S} (f : A → B) (body : B → S → outcome S) xs s :
  foldM body (map f xs) s = foldM (λ x, body (f x)) xs s.
Proof.
  revert s. induction xs as [|x xs IH]; intros s; [done|].
  cbn [foldM map]. destruct (body (f x) s); cbn [mbind outcome_bind]; auto.
Qed.

Lemma for_nat {S} (n : nat) (body : Z → S → outcome S) s :
  Z.of_nat n ≤ INT_MAX →
  for_ (budget (Z.of_nat n)) 0 (λ i, i <? Z.of_nat n) (λ i, int_add i 1) body s
  = foldM (λ i, body (Z.of_nat i)) (seq 0 n) s.
Proof.
  intros Hn. rewrite (for_counter n); unfold budget, INT_MIN, INT_MAX in *; try lia.
  unfold counter_values. rewrite foldM_fmap.
  apply foldM_ext. intros i s' _. f_equal. lia.
Qed.

Lemma for_strided {S} (g c : nat) fuel (body : Z → S → outcome S) s :
  (0 < g)%nat → (c < fuel)%nat → Z.of_nat (g * c) ≤ INT_MAX →
  for_ fuel 0 (λ lo, lo <? Z.of_nat (g * c)) (λ lo, int_add lo (Z.of_nat g)) body s
  = foldM (λ k, body (Z.of_nat (g * k))) (seq 0 c) s.
Proof.
  intros Hg Hc Hmax.
  rewrite (for_counter c); unfold INT_MIN, INT_MAX in *; try lia.
  unfold counter_values. rewrite foldM_fmap.
  apply foldM_ext. intros i s' _. f_equal. lia.
Qed.

Lemma length_cross l r : length (cross l r) = (2 * length l)%nat.
Proof. unfold cross. by rewrite length_map, length_seq. Qed.

Lemma length_half_clean g s : length (half_clean g s) = length s.
Proof. unfold half_clean. by rewrite length_map, length_seq. Qed.

Lemma length_clean_rounds k s : length (clean_rounds k s) = length s.
Proof.
  revert s. induction k as [|k IH]; intros s; [done|].
  cbn [clean_rounds]. by rewrite IH, length_half_clean.
Qed.

Lemma lookup_tabulate (F : nat → Z) (n p : nat) :
  map F (seq 0 n) !! p = if decide (p < n)%nat then Some (F p) else None.
Proof.
  rewrite list_lookup_fmap. destruct (decide (p < n)%nat) as [H|H].
  - by rewrite lookup_seq_lt.
  - by rewrite lookup_seq_ge by lia.
Qed.

(** A buffer all of whose slots are written, slot [p] with [F p]. *)
Lemma apply_writes_tabulate (F : nat → Z) ws s :
  Forall (λ w, w.2 = F w.1) ws →
  (∀ p, (p < length s)%nat → p ∈ ws.*1) →
  apply_writes ws s = map F (seq 0 (length s)).
Proof.
  intros Hws Hcover. apply list_eq. intros p.
  rewrite (apply_writes_lookup F) by done. rewrite lookup_tabulate.
  destruct (decide (p < length s)%nat) as [Hp|Hp].
  - destruct (decide (p ∈ ws.*1)) as [_|Hn]; [|by specialize (Hcover p Hp)].
    destruct (lookup_lt_is_Some_2 s p Hp) as [x ->]. done.
  - rewrite (lookup_ge_None_2 s p) by lia. by destruct (decide (p ∈ ws.*1)).
Qed.

Lemma elem_of_flat_map {A B} (f : A → list B) (xs : list A) (y : B) :
  y ∈ flat_map f xs ↔ ∃ x, x ∈ xs ∧ y ∈ f x.
Proof.
  rewrite list_elem_of_In, in_flat_map. split.
  - intros (x & Hx & Hy). exists x. by rewrite !list_elem_of_In.
  - intros (x & Hx & Hy). exists x. by rewrite <- !list_elem_of_In.
Qed.

Lemma crosswork_eq (l r s : list Z) (m : nat) :
  length l = m → length r = m → length s = (2 * m)%nat →
  Z.of_nat (2 * m) ≤ INT_MAX →
  crosswork l r (Z.of_nat m) (Z.of_nat (2 * m)) s = Done (cross l r).
Proof.
  intros Hl Hr Hs Hmax. unfold crosswork.
  set (f := λ i : nat, [Z.min (l !!! i) (r !!! (m - 1 - i)%nat);
                        Z.max (l !!! i) (r !!! (m - 1 - i)%nat)]).
  rewrite for_nat by lia.
  rewrite (foldM_push _ f).
  2:{ intros i acc Hi. apply elem_of_seq in Hi.
      rewrite vec_get_total by lia. cbn [mbind outcome_bind].
      change 1 with (Z.of_nat 1).
      rewrite !int_sub_nat by lia.
      rewrite vec_get_total by lia. cbn [mbind outcome_bind].
      rewrite launch_single_swap_eq. cbn [mbind outcome_bind].
      replace (m - i - 1)%nat with (m - 1 - i)%nat by lia. done. }
  cbn [mbind outcome_bind app].
  rewrite for_nat by lia.
  rewrite (foldM_writes _
    (λ i, [(i, Z.min (l !!! i) (r !!! (m - 1 - i)%nat));
           ((2 * m - 1 - i)%nat, Z.max (l !!! i) (r !!! (m - 1 - i)%nat))])).
  2:{ intros i s' Hi Hs'. apply elem_of_seq in Hi.
      rewrite (vec_get_nat _ _ (f i)).
      2:{ rewrite list_lookup_fmap, lookup_seq_lt by lia. done. }
      cbn [mbind outcome_bind]. unfold f at 1 2.
      change (vec_get [?a; ?b] 0) with (Done a).
      change (vec_get [?a; ?b] 1) with (Done b).
      cbn [mbind outcome_bind].
      rewrite vec_set_nat by lia. cbn [mbind outcome_bind].
      change 1 with (Z.of_nat 1).
      rewrite !int_sub_nat by lia.
      rewrite vec_set_nat by (rewrite length_insert; lia).
      replace (2 * m - i - 1)%nat with (2 * m - 1 - i)%nat by lia.
      done. }
  f_equal. unfold cross.
  replace (seq 0 (2 * length l)) with (seq 0 (length s)) by (f_equal; lia).
  apply apply_writes_tabulate.
  - apply Forall_forall. intros w Hw.
    apply elem_of_flat_map in Hw as (i & Hi & Hw). apply elem_of_seq in Hi.
    unfold cross_slot. rewrite Hl.
    apply elem_of_cons in Hw as [->|Hw]; [|apply list_elem_of_singleton in Hw as ->];
      cbn [fst snd].
    + replace (i <? m)%nat with true by lia. done.
    + replace (2 * m - 1 - i <? m)%nat with false by lia.
      f_equal; f_equal; lia.
  - intros p Hp. apply list_elem_of_fmap.
    destruct (decide (p < m)%nat) as [Hpm|Hpm].
    + eexists (p, _). split; [done|].
      apply elem_of_flat_map. exists p. split; [apply elem_of_seq; lia|]. left.
    + eexists (p, _). split; [done|].
      apply elem_of_flat_map. exists (2 * m - 1 - p)%nat.
      split; [apply elem_of_seq; lia|]. right.
      replace (2 * m - 1 - (2 * m - 1 - p))%nat with p by lia. left.
Qed.

Lemma cross_phase_eq (l r : list Z) :
  length r = length l → Z.of_nat (2 * length l) ≤ INT_MAX →
  cross_phase l r = Done (cross l r).
Proof.
  intros Hr Hmax. unfold cross_phase, size, int_mul, new_vec.
  unfold INT_MAX in Hmax.
  rewrite wrap64u_id by lia.
  rewrite !wrap32_id by (unfold is_int, INT_MIN, INT_MAX; lia).
  cbv zeta.
  replace (Z.of_nat (length l) * 2) with (Z.of_nat (2 * length l)) by lia.
  replace (Z.of_nat (2 * length l) <? 0) with false by lia.
  cbn [mbind outcome_bind].
  apply crosswork_eq; try done.
  rewrite length_replicate. lia.
Qed.

Lemma mod_window (g k i : nat) : (i < g)%nat → ((g * k + i) mod g)%nat = i.
Proof. intros Hi. symmetry. by apply (Nat.mod_unique _ _ k). Qed.

Lemma div_window (g k i : nat) : (i < g)%nat → ((g * k + i) / g)%nat = k.
Proof. intros Hi. symmetry. by apply (Nat.div_unique _ _ _ i). Qed.

Lemma elem_of_round_pairs c h k i :
  (k, i) ∈ round_pairs c h ↔ (k < c)%nat ∧ (i < h)%nat.
Proof.
  unfold round_pairs. rewrite elem_of_flat_map. split.
  - intros (k' & Hk' & Hi). apply list_elem_of_fmap in Hi as (i' & Heq & Hi').
    injection Heq as -> ->. apply elem_of_seq in Hk', Hi'. lia.
  - intros [Hk Hi]. exists k. split; [apply elem_of_seq; lia|].
    apply list_elem_of_fmap. exists i. split; [done|apply elem_of_seq; lia].
Qed.

Lemma length_round_pairs c h : length (round_pairs c h) = (c * h)%nat.
Proof.
  unfold round_pairs.
  assert (G : ∀ ks : list nat,
    length (flat_map (λ k, map (pair k) (seq 0 h)) ks) = (length ks * h)%nat).
  { induction ks as [|k ks IH]; [done|].
    cbn [flat_map length]. rewrite length_app, length_map, length_seq, IH. lia. }
  by rewrite G, length_seq.
Qed.

Lemma clean_round_eq (h c : nat) (s : list Z) :
  (0 < h)%nat → (0 < c)%nat →
  length s = (2 * h * c)%nat → Z.of_nat (2 * h * c) ≤ INT_MAX →
  clean_round (Z.of_nat (2 * h * c)) (Z.of_nat (2 * h)) s
  = Done (half_clean (2 * h) s).
Proof.
  intros Hh Hc Hs Hmax. unfold clean_round. unfold INT_MAX in Hmax.
  assert (Hhalf : int_div (Z.of_nat (2 * h)) 2 = Z.of_nat h).
  { unfold int_div. replace (Z.of_nat (2 * h)) with (Z.of_nat h * 2) by lia.
    rewrite Z.quot_mul by lia. apply wrap32_id.
    unfold is_int, INT_MIN, INT_MAX in *. nia. }
  rewrite Hhalf. cbv zeta.
  assert (Hhmax : Z.of_nat h ≤ INT_MAX) by (unfold INT_MAX; nia).
  set (f := λ ki : nat * nat,
         [Z.min (s !!! (2 * h * ki.1 + ki.2)%nat) (s !!! (2 * h * ki.1 + ki.2 + h)%nat);
          Z.max (s !!! (2 * h * ki.1 + ki.2)%nat) (s !!! (2 * h * ki.1 + ki.2 + h)%nat)]).
  (* launch tasks *)
  rewrite for_strided; [|lia|unfold budget; nia|unfold INT_MAX; done].
  rewrite (foldM_ext _ (λ k results,
    foldM (λ i results', Done (results' ++ [f (k, i)])) (seq 0 h) results)).
  2:{ intros k res Hk. apply elem_of_seq in Hk.
      rewrite for_nat by done. apply foldM_ext. intros i res' Hi.
      apply elem_of_seq in Hi.
      rewrite !int_add_nat by (unfold INT_MAX; nia).
      rewrite !vec_get_total by nia. cbn [mbind outcome_bind].
      by rewrite launch_single_swap_eq. }
  rewrite (foldM_nested (λ k i results', Done (results' ++ [f (k, i)]))).
  fold (round_pairs c h).
  rewrite (foldM_push _ f).
  2:{ intros [k i] acc _. done. }
  cbn [mbind outcome_bind app].
  (* get results *)
  set (W := λ ki : nat * nat,
         [((2 * h * ki.1 + ki.2)%nat,
           Z.min (s !!! (2 * h * ki.1 + ki.2)%nat) (s !!! (2 * h * ki.1 + ki.2 + h)%nat));
          ((2 * h * ki.1 + ki.2 + h)%nat,
           Z.max (s !!! (2 * h * ki.1 + ki.2)%nat) (s !!! (2 * h * ki.1 + ki.2 + h)%nat))]).
  rewrite for_strided; [|lia|unfold budget; nia|unfold INT_MAX; done].
  rewrite (foldM_ext _ (λ k st,
    foldM (λ i st',
             values ← vec_get (map f (round_pairs c h)) st'.1;
             v0 ← vec_get values 0;
             v1 ← vec_get values 1;
             sorted ← vec_set st'.2 (Z.of_nat (2 * h * k + i)) v0;
             sorted ← vec_set sorted (Z.of_nat (2 * h * k + i + h)) v1;
             Done (int_add st'.1 1, sorted)) (seq 0 h) st)).
  2:{ intros k st Hk. apply elem_of_seq in Hk.
      rewrite for_nat by done. apply foldM_ext. intros i st' Hi.
      apply elem_of_seq in Hi.
      rewrite !int_add_nat by (unfold INT_MAX; nia). done. }
  rewrite (foldM_nested (λ k i st',
             values ← vec_get (map f (round_pairs c h)) st'.1;
             v0 ← vec_get values 0;
             v1 ← vec_get values 1;
             sorted ← vec_set st'.2 (Z.of_nat (2 * h * k + i)) v0;
             sorted ← vec_set sorted (Z.of_nat (2 * h * k + i + h)) v1;
             Done (int_add st'.1 1, sorted))).
  fold (round_pairs c h).
  rewrite (foldM_writes_counter _ W).
  2:{ intros idx [k i] s' Hidx Hs'. cbn [fst snd].
      assert (Hki : (k < c)%nat ∧ (i < h)%nat).
      { apply elem_of_round_pairs. by eapply list_elem_of_lookup_2. }
      rewrite (vec_get_nat _ _ (f (k, i))) by (by rewrite list_lookup_fmap, Hidx).
      cbn [mbind outcome_bind]. unfold f at 1 2. cbn [fst snd].
      change (vec_get [?a; ?b] 0) with (Done a).
      change (vec_get [?a; ?b] 1) with (Done b).
      cbn [mbind outcome_bind].
      rewrite vec_set_nat by nia. cbn [mbind outcome_bind].
      rewrite vec_set_nat by (rewrite length_insert; nia).
      cbn [mbind outcome_bind].
      change 1 with (Z.of_nat 1). rewrite int_add_nat.
      - do 3 f_equal. lia.
      - apply lookup_lt_Some in Hidx. rewrite length_round_pairs in Hidx.
        unfold INT_MAX. nia. }
  cbn [mbind outcome_bind snd]. f_equal.
  apply apply_writes_tabulate.
  - apply Forall_forall. intros w Hw.
    apply elem_of_flat_map in Hw as ([k i] & Hki & Hw).
    apply elem_of_round_pairs in Hki as [Hk Hi].
    unfold half_clean_slot.
    replace (2 * h / 2)%nat with h by (rewrite Nat.mul_comm, Nat.div_mul; lia).
    apply elem_of_cons in Hw as [->|Hw]; [|apply list_elem_of_singleton in Hw as ->];
      cbn [fst snd].
    + rewrite mod_window by lia. replace (i <? h)%nat with true by lia. done.
    + replace (2 * h * k + i + h)%nat with (2 * h * k + (i + h))%nat by lia.
      rewrite mod_window by lia. replace (i + h <? h)%nat with false by lia.
      do 2 f_equal. lia.
  - intros p Hp. apply list_elem_of_fmap.
    pose proof (Nat.div_mod_eq p (2 * h)) as Hdm.
    pose proof (Nat.mod_upper_bound p (2 * h)) as Hmod.
    assert (Hdiv : (p / (2 * h) < c)%nat).
    { apply Nat.Div0.div_lt_upper_bound. lia. }
    set (k := (p / (2 * h))%nat) in *. set (o := (p mod (2 * h))%nat) in *.
    destruct (decide (o < h)%nat) as [Ho|Ho].
    + eexists (p, _). split; [done|].
      apply elem_of_flat_map. exists (k, o).
      split; [apply elem_of_round_pairs; lia|].
      unfold W. cbn [fst snd]. replace (2 * h * k + o)%nat with p by lia. left.
    + eexists (p, _). split; [done|].
      apply elem_of_flat_map. exists (k, (o - h)%nat).
      split; [apply elem_of_round_pairs; lia|].
      unfold W. cbn [fst snd].
      replace (2 * h * k + (o - h) + h)%nat with p by lia. right. left.
Qed.

Lemma sort_bitonic_eq (j c : nat) (fuel : nat) (s : list Z) :
  (j < fuel)%nat → (0 < c)%nat →
  length s = (2 ^ j * c)%nat → Z.of_nat (2 ^ j * c) ≤ INT_MAX →
  for_ fuel (Z.of_nat (2 ^ j)) (λ gap, 1 <? gap) (λ gap, int_div gap 2)
    (clean_round (Z.of_nat (2 ^ j * c))) s
  = Done (clean_rounds j s).
Proof.
  revert fuel c s. induction j as [|j IH]; intros fuel c s Hfuel Hc Hs Hmax.
  - destruct fuel as [|fuel]; [lia|]. rewrite for_unfold. done.
  - destruct fuel as [|fuel]; [lia|]. rewrite for_unfold.
    assert (Hpos : (0 < 2 ^ j)%nat) by (apply Nat.neq_0_lt_0, Nat.pow_nonzero; lia).
    replace (1 <? Z.of_nat (2 ^ Datatypes.S j)) with true
      by (rewrite Nat.pow_succ_r'; lia).
    replace (2 ^ Datatypes.S j * c)%nat with (2 * 2 ^ j * c)%nat in *
      by (rewrite Nat.pow_succ_r'; lia).
    replace (2 ^ Datatypes.S j)%nat with (2 * 2 ^ j)%nat by (rewrite Nat.pow_succ_r'; lia).
    rewrite clean_round_eq by done. cbn [mbind outcome_bind].
    assert (Hhalf : int_div (Z.of_nat (2 * 2 ^ j)) 2 = Z.of_nat (2 ^ j)).
    { unfold int_div. replace (Z.of_nat (2 * 2 ^ j)) with (Z.of_nat (2 ^ j) * 2) by lia.
      rewrite Z.quot_mul by lia. apply wrap32_id.
      unfold is_int, INT_MIN, INT_MAX in *. nia. }
    rewrite Hhalf.
    replace (2 * 2 ^ j * c)%nat with (2 ^ j * (2 * c))%nat in * by lia.
    rewrite IH; [|lia|lia|by rewrite length_half_clean|done].
    cbn [clean_rounds]. by rewrite Nat.pow_succ_r'.
Qed.

Lemma pow2_nat_small (k : nat) : Z.of_nat (2 ^ k) ≤ INT_MAX → (k < 31)%nat.
Proof.
  intros H. destruct (decide (k < 31)%nat) as [|Hk]; [done|].
  assert (2 ^ 31 ≤ 2 ^ k)%nat by (apply Nat.pow_le_mono_r; lia).
  assert (Z.of_nat (2 ^ 31) = 2 ^ 31) by (rewrite Nat2Z.inj_pow; reflexivity).
  unfold INT_MAX in H. lia.
Qed.

(** On runs of length 2^k the merge task computes [bitonic_merge]. *)
Lemma launch_subsorter_eq (k : nat) (l r : list Z) :
  length l = (2 ^ k)%nat → length r = (2 ^ k)%nat →
  Z.of_nat (2 * 2 ^ k) ≤ INT_MAX →
  launch_subsorter l r = Done (bitonic_merge k l r).
Proof.
  intros Hl Hr Hmax. unfold launch_subsorter, subsorter_task.
  cbn [futures]. change (size [l; r] =? 2) with true.
  cbn [assert mbind outcome_bind].
  change (vec_get [l; r] 0) with (Done l). change (vec_get [l; r] 1) with (Done r).
  cbn [mbind outcome_bind].
  replace (size l =? size r) with true
    by (unfold size; rewrite Hl, Hr; symmetry; apply Z.eqb_refl).
  cbn [assert mbind outcome_bind].
  rewrite cross_phase_eq by (rewrite ?Hl; done).
  cbn [mbind outcome_bind]. cbv zeta.
  assert (Hnv : wrap32 (size l) = Z.of_nat (2 ^ k)).
  { unfold size. rewrite Hl. unfold INT_MAX in Hmax. rewrite wrap64u_id by lia.
    apply wrap32_id. unfold is_int, INT_MIN, INT_MAX. lia. }
  rewrite Hnv.
  assert (Hnt : int_mul (Z.of_nat (2 ^ k)) 2 = Z.of_nat (2 ^ k * 2)).
  { unfold int_mul. rewrite wrap32_id; [lia|].
    unfold is_int, INT_MIN, INT_MAX in *. lia. }
  rewrite Hnt. unfold sort_bitonic.
  apply sort_bitonic_eq.
  - unfold budget. change (Z.to_nat 32) with 32%nat.
    assert (k < 31)%nat; [|lia]. apply pow2_nat_small. lia.
  - lia.
  - rewrite length_cross, Hl. lia.
  - lia.
Qed.

(** ** Sortedness of the merge *)

(** The half-cleaner on four columns [(a_i, b_i)] of a window: when none of
    six quadruples drawn from the columns alternates, neither the four minima
    nor the four maxima alternate. *)
Section columns.
Variables a1 a2 a3 a4 b1 b2 b3 b4 : Z.
Hypothesis H1 : ¬ alternates a1 a2 a3 a4.
Hypothesis H2 : ¬ alternates b1 b2 b3 b4.
Hypothesis H3 : ¬ alternates a1 a2 a3 b4.
Hypothesis H4 : ¬ alternates a1 a2 b3 b4.
Hypothesis H5 : ¬ alternates a1 a4 b1 b2.
Hypothesis H6 : ¬ alternates a2 a3 a4 b1.

Lemma columns_low v1 v2 v3 v4 :
  v1 ≤ a1 → v1 ≤ b1 → v1 = a1 ∨ v1 = b1 →
  v2 ≤ a2 → v2 ≤ b2 → v2 = a2 ∨ v2 = b2 →
  v3 ≤ a3 → v3 ≤ b3 → v3 = a3 ∨ v3 = b3 →
  v4 ≤ a4 → v4 ≤ b4 → v4 = a4 ∨ v4 = b4 →
  ¬ alternates v1 v2 v3 v4.
Proof.
  intros L1 R1 E1 L2 R2 E2 L3 R3 E3 L4 R4 E4 [(?&?&?&?)|(?&?&?&?)].
  - destruct E2 as [-> | ->], E4 as [-> | ->].
    + apply H1. left. lia.
    + apply H3. left. lia.
    + apply H5. left. lia.
    + apply H2. left. lia.
  - destruct E1 as [-> | ->], E3 as [-> | ->].
    + apply H1. right. lia.
    + apply H4. right. lia.
    + apply H6. left. lia.
    + apply H2. right. lia.
Qed.

Lemma columns_high v1 v2 v3 v4 :
  a1 ≤ v1 → b1 ≤ v1 → v1 = a1 ∨ v1 = b1 →
  a2 ≤ v2 → b2 ≤ v2 → v2 = a2 ∨ v2 = b2 →
  a3 ≤ v3 → b3 ≤ v3 → v3 = a3 ∨ v3 = b3 →
  a4 ≤ v4 → b4 ≤ v4 → v4 = a4 ∨ v4 = b4 →
  ¬ alternates v1 v2 v3 v4.
Proof.
  intros L1 R1 E1 L2 R2 E2 L3 R3 E3 L4 R4 E4 [(?&?&?&?)|(?&?&?&?)].
  - destruct E1 as [-> | ->], E3 as [-> | ->].
    + apply H1. left. lia.
    + apply H4. left. lia.
    + apply H6. right. lia.
    + apply H2. left. lia.
  - destruct E2 as [-> | ->], E4 as [-> | ->].
    + apply H1. right. lia.
    + apply H3. right. lia.
    + apply H5. right. lia.
    + apply H2. right. lia.
Qed.
End columns.

Lemma min_cases (a b : Z) :
  Z.min a b ≤ a ∧ Z.min a b ≤ b ∧ (Z.min a b = a ∨ Z.min a b = b).
Proof. lia. Qed.

Lemma max_cases (a b : Z) :
  a ≤ Z.max a b ∧ b ≤ Z.max a b ∧ (Z.max a b = a ∨ Z.max a b = b).
Proof. lia. Qed.

Lemma lookup_total_tabulate (F : nat → Z) (n p : nat) :
  (p < n)%nat → map F (seq 0 n) !!! p = F p.
Proof.
  intros Hp. apply list_lookup_total_correct.
  rewrite lookup_tabulate. by destruct (decide (p < n)%nat).
Qed.

Lemma half_clean_total g s p :
  (p < length s)%nat → half_clean g s !!! p = half_clean_slot g s p.
Proof. apply lookup_total_tabulate. Qed.

Lemma cross_total l r p :
  (p < 2 * length l)%nat → cross l r !!! p = cross_slot l r p.
Proof. apply lookup_total_tabulate. Qed.

Lemma window_mono (g K K' : nat) : (K < K')%nat → (g * K + g ≤ g * K')%nat.
Proof. intros H. nia. Qed.

(** Every slot lies in the low or the high half of a window. *)
Lemma window_of (h c p : nat) :
  (0 < h)%nat → (p < 2 * h * c)%nat →
  ∃ K, (K < c)%nat ∧
       ((2 * h * K ≤ p ∧ p < 2 * h * K + h)%nat
        ∨ (2 * h * K + h ≤ p ∧ p < 2 * h * K + 2 * h)%nat).
Proof.
  intros Hh Hp. exists (p / (2 * h))%nat.
  pose proof (Nat.div_mod_eq p (2 * h)) as Hdm.
  pose proof (Nat.mod_upper_bound p (2 * h)) as Hmod.
  split; [apply Nat.Div0.div_lt_upper_bound; lia|]. lia.
Qed.

Section half_clean_step.
Variables (h c : nat) (s : list Z).
Hypothesis h_pos : (0 < h)%nat.
Hypothesis length_s : length s = (2 * h * c)%nat.
Hypothesis s_ordered : windows_ordered (2 * h) s.
Hypothesis s_bitonic : windows_bitonic (2 * h) s.

Lemma half_clean_slot_low K p :
  (2 * h * K ≤ p)%nat → (p < 2 * h * K + h)%nat →
  half_clean_slot (2 * h) s p = Z.min (s !!! p) (s !!! (p + h)%nat).
Proof.
  intros H1 H2. unfold half_clean_slot.
  replace (2 * h / 2)%nat with h by (rewrite Nat.mul_comm, Nat.div_mul; lia).
  replace p with (2 * h * K + (p - 2 * h * K))%nat at 1 by lia.
  rewrite mod_window by lia.
  replace (p - 2 * h * K <? h)%nat with true by lia. done.
Qed.

Lemma half_clean_slot_high K p :
  (2 * h * K + h ≤ p)%nat → (p < 2 * h * K + 2 * h)%nat →
  half_clean_slot (2 * h) s p = Z.max (s !!! (p - h)%nat) (s !!! p).
Proof.
  intros H1 H2. unfold half_clean_slot.
  replace (2 * h / 2)%nat with h by (rewrite Nat.mul_comm, Nat.div_mul; lia).
  replace p with (2 * h * K + (p - 2 * h * K))%nat at 1 by lia.
  rewrite mod_window by lia.
  replace (p - 2 * h * K <? h)%nat with false by lia. done.
Qed.

(** The new value of a slot is the value of an old slot of its window,
    bounded by the two old slots of its column. *)
Lemma half_clean_slot_bounds K p :
  (K < c)%nat → (2 * h * K ≤ p)%nat → (p < 2 * h * K + 2 * h)%nat →
  ∃ p1 p2, (2 * h * K ≤ p1)%nat ∧ (p1 < p2)%nat ∧ (p2 < 2 * h * K + 2 * h)%nat
    ∧ Z.min (s !!! p1) (s !!! p2) ≤ half_clean_slot (2 * h) s p
    ∧ half_clean_slot (2 * h) s p ≤ Z.max (s !!! p1) (s !!! p2).
Proof.
  intros HK H1 H2. destruct (decide (p < 2 * h * K + h)%nat) as [Hlow|Hhigh].
  - exists p, (p + h)%nat. rewrite (half_clean_slot_low K) by lia. lia.
  - exists (p - h)%nat, p. rewrite (half_clean_slot_high K) by lia. lia.
Qed.

Lemma half_clean_ordered : windows_ordered h (half_clean (2 * h) s).
Proof.
  intros k p q Hp Hq Hqn. rewrite length_half_clean, length_s in Hqn.
  rewrite !half_clean_total by (rewrite length_s; lia).
  destruct (window_of h c p) as (Kp & HKp & Hp'); [lia..|].
  destruct (window_of h c q) as (Kq & HKq & Hq'); [lia..|].
  destruct (lt_eq_lt_dec Kp Kq) as [[Hlt|Heq]|Hgt].
  - (* different windows *)
    pose proof (window_mono (2 * h) Kp Kq Hlt) as Hm.
    pose proof (window_mono (2 * h) Kq c HKq) as Hc.
    destruct (half_clean_slot_bounds Kp p) as (p1 & p2 & ? & ? & ? & _ & Hpu); [lia..|].
    destruct (half_clean_slot_bounds Kq q) as (q1 & q2 & ? & ? & ? & Hql & _); [lia..|].
    assert (s !!! p1 ≤ s !!! q1) by (apply (s_ordered Kq); lia).
    assert (s !!! p1 ≤ s !!! q2) by (apply (s_ordered Kq); lia).
    assert (s !!! p2 ≤ s !!! q1) by (apply (s_ordered Kq); lia).
    assert (s !!! p2 ≤ s !!! q2) by (apply (s_ordered Kq); lia).
    lia.
  - (* the two halves of one window *)
    subst Kq. rename Kp into K.
    pose proof (window_mono (2 * h) K c HKp) as Hc.
    assert (Hk : (h * k = 2 * h * K + h)%nat).
    { destruct (lt_eq_lt_dec k (2 * K + 1)) as [[Hk|Hk]|Hk].
      - assert (h * k ≤ h * (2 * K))%nat by (apply Nat.mul_le_mono_l; lia). lia.
      - subst k. lia.
      - assert (h * (2 * K + 2) ≤ h * k)%nat by (apply Nat.mul_le_mono_l; lia). lia. }
    rewrite (half_clean_slot_low K p) by lia.
    rewrite (half_clean_slot_high K q) by lia.
    destruct (lt_eq_lt_dec p (q - h)) as [[Hpq|Hpq]|Hpq].
    + pose proof (s_bitonic K p (q - h)%nat (p + h)%nat q) as Hb.
      replace (2 * h * (K + 1))%nat with (2 * h * K + 2 * h)%nat in Hb by lia.
      unfold alternates in Hb. lia.
    + subst p. replace (q - h + h)%nat with q by lia. lia.
    + pose proof (s_bitonic K (q - h)%nat p q (p + h)%nat) as Hb.
      replace (2 * h * (K + 1))%nat with (2 * h * K + 2 * h)%nat in Hb by lia.
      unfold alternates in Hb. lia.
  - pose proof (window_mono (2 * h) Kq Kp Hgt). lia.
Qed.

Lemma half_clean_bitonic : windows_bitonic h (half_clean (2 * h) s).
Proof.
  intros k p1 p2 p3 p4 Hk H12 H23 H34 Hk' Hn.
  rewrite length_half_clean, length_s in Hn.
  rewrite !half_clean_total by (rewrite length_s; lia).
  assert (Hwin : ∀ K a b c' d, (2 * h * K ≤ a)%nat → (a < b)%nat → (b < c')%nat →
            (c' < d)%nat → (d < 2 * h * K + 2 * h)%nat → (K < c)%nat →
            ¬ alternates (s !!! a) (s !!! b) (s !!! c') (s !!! d)).
  { intros K a b c' d ? ? ? ? ? HK. apply (s_bitonic K); try lia.
    pose proof (window_mono (2 * h) K c HK). lia. }
  destruct (Nat.Even_or_Odd k) as [[K ->]|[K ->]].
  - (* low half of window K *)
    assert (HK : (K < c)%nat).
    { destruct (decide (K < c)%nat) as [|HK]; [done|].
      assert (2 * h * c ≤ 2 * h * K)%nat by (apply Nat.mul_le_mono_l; lia). lia. }
    rewrite !(half_clean_slot_low K) by lia.
    destruct (min_cases (s !!! p1) (s !!! (p1 + h)%nat)) as (? & ? & ?).
    destruct (min_cases (s !!! p2) (s !!! (p2 + h)%nat)) as (? & ? & ?).
    destruct (min_cases (s !!! p3) (s !!! (p3 + h)%nat)) as (? & ? & ?).
    destruct (min_cases (s !!! p4) (s !!! (p4 + h)%nat)) as (? & ? & ?).
    apply (columns_low (s !!! p1) (s !!! p2) (s !!! p3) (s !!! p4)
             (s !!! (p1 + h)%nat) (s !!! (p2 + h)%nat)
             (s !!! (p3 + h)%nat) (s !!! (p4 + h)%nat)); try done;
      apply (Hwin K); lia.
  - (* high half of window K *)
    assert (HK : (K < c)%nat).
    { destruct (decide (K < c)%nat) as [|HK]; [done|].
      assert (2 * h * c ≤ 2 * h * K)%nat by (apply Nat.mul_le_mono_l; lia). lia. }
    rewrite !(half_clean_slot_high K) by lia.
    destruct (max_cases (s !!! (p1 - h)%nat) (s !!! p1)) as (? & ? & ?).
    destruct (max_cases (s !!! (p2 - h)%nat) (s !!! p2)) as (? & ? & ?).
    destruct (max_cases (s !!! (p3 - h)%nat) (s !!! p3)) as (? & ? & ?).
    destruct (max_cases (s !!! (p4 - h)%nat) (s !!! p4)) as (? & ? & ?).
    apply (columns_high (s !!! (p1 - h)%nat) (s !!! (p2 - h)%nat)
             (s !!! (p3 - h)%nat) (s !!! (p4 - h)%nat)
             (s !!! p1) (s !!! p2) (s !!! p3) (s !!! p4)); try done;
      apply (Hwin K); lia.
Qed.
End half_clean_step.

Lemma Sorted_ascending l : Sorted Z.le l → ascending l.
Proof.
  intros Hl. apply Sorted_StronglySorted in Hl; [|apply _].
  induction Hl as [|x l Hl IH Hx]; intros i j Hij Hj; cbn [length] in Hj; [lia|].
  destruct i as [|i], j as [|j]; try lia.
  - cbn. rewrite Forall_forall in Hx. apply Hx.
    apply list_elem_of_lookup_total_2. lia.
  - cbn. apply IH; lia.
Qed.

Lemma ascending_Sorted l : ascending l → Sorted Z.le l.
Proof.
  induction l as [|x l IH]; intros Hl; [constructor|].
  constructor.
  - apply IH. intros i j Hij Hj.
    apply (Hl (Datatypes.S i) (Datatypes.S j)); cbn [length]; lia.
  - destruct l as [|y l]; constructor.
    apply (Hl 0%nat 1%nat); cbn [length]; lia.
Qed.

(** The slot-wise minimum of a rising and a falling run does not alternate,
    nor does the slot-wise maximum of a falling and a rising run. *)
Lemma min_rise_fall (x1 x2 x3 x4 y1 y2 y3 y4 : Z) v1 v2 v3 v4 :
  x1 ≤ x2 → x2 ≤ x3 → x3 ≤ x4 → y2 ≤ y1 → y3 ≤ y2 → y4 ≤ y3 →
  v1 ≤ x1 ∧ v1 ≤ y1 ∧ (v1 = x1 ∨ v1 = y1) →
  v2 ≤ x2 ∧ v2 ≤ y2 ∧ (v2 = x2 ∨ v2 = y2) →
  v3 ≤ x3 ∧ v3 ≤ y3 ∧ (v3 = x3 ∨ v3 = y3) →
  v4 ≤ x4 ∧ v4 ≤ y4 ∧ (v4 = x4 ∨ v4 = y4) →
  ¬ alternates v1 v2 v3 v4.
Proof.
  intros ? ? ? ? ? ? (? & ? & E1) (? & ? & E2) (? & ? & E3) (? & ? & E4)
    [(?&?&?&?)|(?&?&?&?)].
  - destruct E2; lia.
  - destruct E3; lia.
Qed.

Lemma max_fall_rise (x1 x2 x3 x4 y1 y2 y3 y4 : Z) v1 v2 v3 v4 :
  x2 ≤ x1 → x3 ≤ x2 → x4 ≤ x3 → y1 ≤ y2 → y2 ≤ y3 → y3 ≤ y4 →
  x1 ≤ v1 ∧ y1 ≤ v1 ∧ (v1 = x1 ∨ v1 = y1) →
  x2 ≤ v2 ∧ y2 ≤ v2 ∧ (v2 = x2 ∨ v2 = y2) →
  x3 ≤ v3 ∧ y3 ≤ v3 ∧ (v3 = x3 ∨ v3 = y3) →
  x4 ≤ v4 ∧ y4 ≤ v4 ∧ (v4 = x4 ∨ v4 = y4) →
  ¬ alternates v1 v2 v3 v4.
Proof.
  intros ? ? ? ? ? ? (? & ? & E1) (? & ? & E2) (? & ? & E3) (? & ? & E4)
    [(?&?&?&?)|(?&?&?&?)].
  - destruct E3; lia.
  - destruct E2; lia.
Qed.

Section cross_invariants.
Variables (l r : list Z).
Hypothesis length_r : length r = length l.
Hypothesis l_sorted : ascending l.
Hypothesis r_sorted : ascending r.

Lemma cross_window k p :
  (length l * k ≤ p)%nat → (p < length l * (k + 1))%nat → (p < 2 * length l)%nat →
  (k = 0 ∧ p < length l)%nat ∨ (k = 1 ∧ length l ≤ p)%nat.
Proof. intros H1 H2 H3. destruct k as [|[|k]]; [lia|lia|nia]. Qed.

Lemma cross_ordered : windows_ordered (length l) (cross l r).
Proof.
  intros k p q Hp Hq Hn. rewrite length_cross in Hn.
  rewrite !cross_total by lia. unfold cross_slot.
  assert (p < length l ∧ length l ≤ q)%nat as [Hp' Hq'].
  { destruct k as [|[|k]]; [lia|lia|nia]. }
  replace (p <? length l)%nat with true by lia.
  replace (q <? length l)%nat with false by lia.
  destruct (decide (p ≤ 2 * length l - 1 - q)%nat) as [Hle|Hgt].
  - pose proof (l_sorted p (2 * length l - 1 - q)%nat). lia.
  - pose proof (r_sorted (length l - 1 - p)%nat (q - length l)%nat). lia.
Qed.

Lemma cross_bitonic : windows_bitonic (length l) (cross l r).
Proof.
  intros k p1 p2 p3 p4 Hk H12 H23 H34 Hk' Hn. rewrite length_cross in Hn.
  rewrite !cross_total by lia. unfold cross_slot.
  set (m := length l) in *.
  assert ((k = 0 ∧ p4 < m) ∨ (k = 1 ∧ m ≤ p1))%nat as [[-> Hlow]|[-> Hhigh]].
  { destruct k as [|[|k]]; [lia|lia|nia]. }
  - replace (p1 <? m)%nat with true by lia. replace (p2 <? m)%nat with true by lia.
    replace (p3 <? m)%nat with true by lia. replace (p4 <? m)%nat with true by lia.
    apply (min_rise_fall (l !!! p1) (l !!! p2) (l !!! p3) (l !!! p4)
             (r !!! (m - 1 - p1)%nat) (r !!! (m - 1 - p2)%nat)
             (r !!! (m - 1 - p3)%nat) (r !!! (m - 1 - p4)%nat));
      try apply min_cases; try (apply l_sorted; lia); apply r_sorted; lia.
  - replace (p1 <? m)%nat with false by lia. replace (p2 <? m)%nat with false by lia.
    replace (p3 <? m)%nat with false by lia. replace (p4 <? m)%nat with false by lia.
    apply (max_fall_rise (l !!! (2 * m - 1 - p1)%nat) (l !!! (2 * m - 1 - p2)%nat)
             (l !!! (2 * m - 1 - p3)%nat) (l !!! (2 * m - 1 - p4)%nat)
             (r !!! (p1 - m)%nat) (r !!! (p2 - m)%nat)
             (r !!! (p3 - m)%nat) (r !!! (p4 - m)%nat));
      try apply max_cases; try (apply l_sorted; lia); apply r_sorted; lia.
Qed.
End cross_invariants.

Lemma clean_rounds_ordered (k c : nat) (s : list Z) :
  (0 < c)%nat → length s = (2 ^ k * c)%nat →
  windows_ordered (2 ^ k) s → windows_bitonic (2 ^ k) s →
  windows_ordered 1 (clean_rounds k s).
Proof.
  revert c s. induction k as [|k IH]; intros c s Hc Hs Hord Hbit; [done|].
  cbn [clean_rounds].
  assert (Hpos : (0 < 2 ^ k)%nat) by (apply Nat.neq_0_lt_0, Nat.pow_nonzero; lia).
  rewrite Nat.pow_succ_r' in *.
  apply (IH (2 * c)%nat).
  - lia.
  - rewrite length_half_clean. lia.
  - apply (half_clean_ordered _ c); done || lia.
  - apply (half_clean_bitonic _ c); done || lia.
Qed.

Lemma windows_ordered_1 s : windows_ordered 1 s → ascending s.
Proof.
  intros Hs i j Hij Hj. destruct (decide (i = j)) as [->|Hne]; [lia|].
  apply (Hs j); lia.
Qed.

Lemma bitonic_merge_sorted (k : nat) (l r : list Z) :
  length l = (2 ^ k)%nat → length r = (2 ^ k)%nat →
  Sorted Z.le l → Sorted Z.le r →
  Sorted Z.le (bitonic_merge k l r).
Proof.
  intros Hl Hr Hsl Hsr. apply ascending_Sorted, windows_ordered_1.
  unfold bitonic_merge. apply (clean_rounds_ordered k 2).
  - lia.
  - rewrite length_cross. lia.
  - rewrite <- Hl. apply cross_ordered; [lia|by apply Sorted_ascending..].
  - rewrite <- Hl. apply cross_bitonic; [lia|by apply Sorted_ascending..].
Qed.

(** ** The merge permutes its inputs

    Each slot of the new buffer holds the value of one old slot; the map from
    new slots to old slots is its own inverse. *)

Lemma involution_inj (f : nat → nat) : (∀ p, f (f p) = p) → Inj (=) (=) f.
Proof. intros Hf p q Hpq. rewrite <- (Hf p), <- (Hf q). by rewrite Hpq. Qed.

Lemma lookup_app_total_l (l r : list Z) (p : nat) :
  (p < length l)%nat → (l ++ r) !! p = Some (l !!! p).
Proof. intros H. rewrite lookup_app_l by done. by apply list_lookup_lookup_total_lt. Qed.

Lemma lookup_app_total_r (l r : list Z) (p : nat) :
  (length l ≤ p)%nat → (p - length l < length r)%nat →
  (l ++ r) !! p = Some (r !!! (p - length l)%nat).
Proof. intros H1 H2. rewrite lookup_app_r by done. by apply list_lookup_lookup_total_lt. Qed.

Lemma cross_perm (l r : list Z) : length r = length l → cross l r ≡ₚ l ++ r.
Proof.
  intros Hr. apply Permutation_inj. split.
  { rewrite length_cross, length_app. lia. }
  exists (cross_source l r). split.
  - apply involution_inj. intros p. unfold cross_source. cbv zeta.
    set (m := length l).
    destruct (Nat.ltb_spec p (2 * m)) as [Hp|Hp].
    2:{ replace (p <? 2 * m)%nat with false by lia. done. }
    destruct (Nat.ltb_spec p m) as [Hpm|Hpm].
    + destruct (Z.leb_spec (l !!! p) (r !!! (m - 1 - p)%nat)) as [Hle|Hgt].
      * replace (p <? 2 * m)%nat with true by lia.
        replace (p <? m)%nat with true by lia.
        replace (l !!! p <=? r !!! (m - 1 - p)%nat) with true by lia. done.
      * replace (2 * m - 1 - p <? 2 * m)%nat with true by lia.
        replace (2 * m - 1 - p <? m)%nat with false by lia.
        replace (2 * m - 1 - (2 * m - 1 - p))%nat with p by lia.
        replace (2 * m - 1 - p - m)%nat with (m - 1 - p)%nat by lia.
        replace (l !!! p <=? r !!! (m - 1 - p)%nat) with false by lia. done.
    + destruct (Z.leb_spec (l !!! (2 * m - 1 - p)%nat) (r !!! (p - m)%nat)) as [Hle|Hgt].
      * replace (p <? 2 * m)%nat with true by lia.
        replace (p <? m)%nat with false by lia.
        replace (l !!! (2 * m - 1 - p)%nat <=? r !!! (p - m)%nat) with true by lia. done.
      * replace (2 * m - 1 - p <? 2 * m)%nat with true by lia.
        replace (2 * m - 1 - p <? m)%nat with true by lia.
        replace (m - 1 - (2 * m - 1 - p))%nat with (p - m)%nat by lia.
        replace (l !!! (2 * m - 1 - p)%nat <=? r !!! (p - m)%nat) with false by lia.
        lia.
  - intros p. unfold cross. rewrite lookup_tabulate.
    unfold cross_source, cross_slot. cbv zeta. set (m := length l).
    destruct (decide (p < 2 * m)%nat) as [Hp|Hp].
    2:{ replace (p <? 2 * m)%nat with false by lia.
        symmetry. apply lookup_ge_None_2. rewrite length_app. lia. }
    replace (p <? 2 * m)%nat with true by lia.
    destruct (Nat.ltb_spec p m) as [Hpm|Hpm].
    + destruct (Z.leb_spec (l !!! p) (r !!! (m - 1 - p)%nat)) as [Hle|Hgt].
      * rewrite lookup_app_total_l by done. f_equal. lia.
      * rewrite lookup_app_total_r by (fold m; lia). fold m.
        replace (2 * m - 1 - p - m)%nat with (m - 1 - p)%nat by lia. f_equal. lia.
    + destruct (Z.leb_spec (l !!! (2 * m - 1 - p)%nat) (r !!! (p - m)%nat)) as [Hle|Hgt].
      * rewrite lookup_app_total_r by (fold m; lia). fold m. f_equal. lia.
      * rewrite lookup_app_total_l by (fold m; lia). f_equal. lia.
Qed.

Lemma half_clean_perm (h c : nat) (s : list Z) :
  (0 < h)%nat → length s = (2 * h * c)%nat → half_clean (2 * h) s ≡ₚ s.
Proof.
  intros Hh Hs. apply Permutation_inj. split; [apply length_half_clean|].
  assert (Hmod : ∀ p, (p < length s)%nat →
    ((p mod (2 * h) <? h)%nat = true ∧ (p + h < length s)%nat
       ∧ ((p + h) mod (2 * h) <? h)%nat = false)
    ∨ ((p mod (2 * h) <? h)%nat = false ∧ (h ≤ p)%nat
       ∧ ((p - h) mod (2 * h) <? h)%nat = true)).
  { intros p Hp. rewrite Hs in *.
    destruct (window_of h c p Hh Hp) as (K & HK & [[H1 H2]|[H1 H2]]).
    - left. pose proof (window_mono (2 * h) K c HK). split; [|split; [lia|]].
      + replace p with (2 * h * K + (p - 2 * h * K))%nat by lia.
        rewrite mod_window by lia. lia.
      + replace (p + h)%nat with (2 * h * K + (p - 2 * h * K + h))%nat by lia.
        rewrite mod_window by lia. lia.
    - right. split; [|split; [lia|]].
      + replace p with (2 * h * K + (p - 2 * h * K))%nat by lia.
        rewrite mod_window by lia. lia.
      + replace (p - h)%nat with (2 * h * K + (p - h - 2 * h * K))%nat by lia.
        rewrite mod_window by lia. lia. }
  exists (half_clean_source h s). split.
  - apply involution_inj. intros p. unfold half_clean_source.
    destruct (Nat.ltb_spec p (length s)) as [Hp|Hp].
    2:{ replace (p <? length s)%nat with false by lia. done. }
    destruct (Hmod p Hp) as [(E1 & Hph & E2)|(E1 & Hph & E2)]; rewrite E1.
    + destruct (Z.leb_spec (s !!! p) (s !!! (p + h)%nat)) as [Hle|Hgt].
      * replace (p <? length s)%nat with true by lia. rewrite E1.
        replace (s !!! p <=? s !!! (p + h)%nat) with true by lia. done.
      * replace (p + h <? length s)%nat with true by lia. rewrite E2.
        replace (p + h - h)%nat with p by lia.
        replace (s !!! p <=? s !!! (p + h)%nat) with false by lia. done.
    + destruct (Z.leb_spec (s !!! (p - h)%nat) (s !!! p)) as [Hle|Hgt].
      * replace (p <? length s)%nat with true by lia. rewrite E1.
        replace (s !!! (p - h)%nat <=? s !!! p) with true by lia. done.
      * replace (p - h <? length s)%nat with true by lia. rewrite E2.
        replace (p - h + h)%nat with p by lia.
        replace (s !!! (p - h)%nat <=? s !!! p) with false by lia. lia.
  - intros p. unfold half_clean. rewrite lookup_tabulate.
    unfold half_clean_source, half_clean_slot.
    replace (2 * h / 2)%nat with h by (rewrite Nat.mul_comm, Nat.div_mul; lia).
    destruct (decide (p < length s)%nat) as [Hp|Hp].
    2:{ replace (p <? length s)%nat with false by lia.
        symmetry. by apply lookup_ge_None_2; lia. }
    replace (p <? length s)%nat with true by lia.
    destruct (Hmod p Hp) as [(E1 & Hph & E2)|(E1 & Hph & E2)]; rewrite E1.
    + destruct (Z.leb_spec (s !!! p) (s !!! (p + h)%nat)) as [Hle|Hgt].
      * rewrite list_lookup_lookup_total_lt by done. f_equal. lia.
      * rewrite list_lookup_lookup_total_lt by done. f_equal. lia.
    + destruct (Z.leb_spec (s !!! (p - h)%nat) (s !!! p)) as [Hle|Hgt].
      * rewrite list_lookup_lookup_total_lt by done. f_equal. lia.
      * rewrite list_lookup_lookup_total_lt by lia. f_equal. lia.
Qed.

Lemma clean_rounds_perm (k c : nat) (s : list Z) :
  length s = (2 ^ k * c)%nat → clean_rounds k s ≡ₚ s.
Proof.
  revert c s. induction k as [|k IH]; intros c s Hs; [done|].
  cbn [clean_rounds].
  assert (Hpos : (0 < 2 ^ k)%nat) by (apply Nat.neq_0_lt_0, Nat.pow_nonzero; lia).
  rewrite Nat.pow_succ_r' in *.
  rewrite (IH (2 * c)%nat) by (rewrite length_half_clean; lia).
  by apply (half_clean_perm _ c).
Qed.

Lemma bitonic_merge_perm (k : nat) (l r : list Z) :
  length l = (2 ^ k)%nat → length r = (2 ^ k)%nat →
  bitonic_merge k l r ≡ₚ l ++ r.
Proof.
  intros Hl Hr. unfold bitonic_merge.
  rewrite (clean_rounds_perm k 2) by (rewrite length_cross; lia).
  apply cross_perm. lia.
Qed.

(** ** The merge task *)

(** C2 as stated fails: for runs of length 3 the task returns an unsorted
    sequence. *)
Lemma subsorter_task_length_3_unsorted :
  Sorted Z.le [1; 5; 6] ∧ Sorted Z.le [2; 3; 4]
  ∧ subsorter_task {| args := []; futures := [[1; 5; 6]; [2; 3; 4]] |}
    = Done [1; 3; 2; 5; 6; 4]
  ∧ ¬ Sorted Z.le [1; 3; 2; 5; 6; 4].
Proof.
  split; [|split; [|split]].
  - repeat first [apply Sorted_cons | apply Sorted_nil | apply HdRel_cons
                 | apply HdRel_nil | lia].
  - repeat first [apply Sorted_cons | apply Sorted_nil | apply HdRel_cons
                 | apply HdRel_nil | lia].
  - reflexivity.
  - intros H. inversion H as [|x1 t1 Ht1 _]. inversion Ht1 as [|x2 t2 _ Hhd].
    inversion Hhd. lia.
Qed.

(** C2, amended: for two non-decreasing runs whose common length m is a
    power of two (with 2m an [int]), the merge task returns a sequence of
    length 2m that is non-decreasing and is a permutation of the two runs
    together. *)
Theorem subsorter_task_merges (k : nat) (l r : list Z) :
  length l = (2 ^ k)%nat → length r = (2 ^ k)%nat →
  Z.of_nat (2 * 2 ^ k) ≤ INT_MAX →
  Sorted Z.le l → Sorted Z.le r →
  ∃ out, subsorter_task {| args := []; futures := [l; r] |} = Done out
         ∧ length out = (2 * 2 ^ k)%nat
         ∧ Sorted Z.le out
         ∧ out ≡ₚ l ++ r.
Proof.
  intros Hl Hr Hmax Hsl Hsr. exists (bitonic_merge k l r).
  split; [by apply launch_subsorter_eq|].
  split; [|split].
  - unfold bitonic_merge. rewrite length_clean_rounds, length_cross. lia.
  - by apply bitonic_merge_sorted.
  - by apply bitonic_merge_perm.
Qed.

Lemma subsorter_task_merges_witness :
  length [1; 5; 6; 9] = (2 ^ 2)%nat ∧ length [2; 3; 4; 7] = (2 ^ 2)%nat
  ∧ Z.of_nat (2 * 2 ^ 2) ≤ INT_MAX
  ∧ Sorted Z.le [1; 5; 6; 9] ∧ Sorted Z.le [2; 3; 4; 7]
  ∧ ∃ out, subsorter_task {| args := []; futures := [[1; 5; 6; 9]; [2; 3; 4; 7]] |}
           = Done out ∧ Sorted Z.le out.
Proof.
  assert (H1 : length [1; 5; 6; 9] = (2 ^ 2)%nat) by reflexivity.
  assert (H2 : length [2; 3; 4; 7] = (2 ^ 2)%nat) by reflexivity.
  assert (H3 : Z.of_nat (2 * 2 ^ 2) ≤ INT_MAX) by (unfold INT_MAX; simpl; lia).
  assert (H4 : Sorted Z.le [1; 5; 6; 9])
    by (repeat first [apply Sorted_cons | apply Sorted_nil | apply HdRel_cons
                     | apply HdRel_nil | lia]).
  assert (H5 : Sorted Z.le [2; 3; 4; 7])
    by (repeat first [apply Sorted_cons | apply Sorted_nil | apply HdRel_cons
                     | apply HdRel_nil | lia]).
  split; [exact H1|]. split; [exact H2|]. split; [exact H3|].
  split; [exact H4|]. split; [exact H5|].
  destruct (subsorter_task_merges 2 _ _ H1 H2 H3 H4 H5) as (out & Hout & _ & Hs & _).
  exists out. split; [exact Hout|exact Hs].
Defined.

Example subsorter_task_four :
  launch_subsorter [1; 5; 6; 9] [2; 3; 4; 7] = Done [1; 2; 3; 4; 5; 6; 7; 9].
Proof. reflexivity. Qed.

(** ** The buffer after the cross phase *)

Lemma rise_fall_bitonic s : rise_fall s → bitonic s.
Proof.
  intros H. apply Exists_exists. exists 0%nat. split; [apply elem_of_seq; lia|].
  left. unfold rotate. rewrite Nat.Div0.mod_0_l. cbn [take drop]. by rewrite app_nil_r.
Qed.

Lemma fall_rise_bitonic s : fall_rise s → bitonic s.
Proof.
  intros H. apply Exists_exists. exists 0%nat. split; [apply elem_of_seq; lia|].
  right. unfold rotate. rewrite Nat.Div0.mod_0_l. cbn [take drop]. by rewrite app_nil_r.
Qed.

(** C8 as stated fails: after the cross phase on two copies of [1;2;3;4]
    the buffer as a whole is not bitonic. *)
Lemma cross_buffer_not_bitonic :
  Sorted Z.le [1; 2; 3; 4]
  ∧ cross_phase [1; 2; 3; 4] [1; 2; 3; 4] = Done [1; 2; 2; 1; 4; 3; 3; 4]
  ∧ ¬ bitonic [1; 2; 2; 1; 4; 3; 3; 4].
Proof.
  split; [|split].
  - repeat first [apply Sorted_cons | apply Sorted_nil | apply HdRel_cons
                 | apply HdRel_nil | lia].
  - reflexivity.
  - apply (bool_decide_eq_false_1 (bitonic [1; 2; 2; 1; 4; 3; 3; 4])).
    vm_compute. reflexivity.
Qed.

Lemma Sorted_adjacent (R : relation Z) (s : list Z) :
  (∀ i, (Datatypes.S i < length s)%nat → R (s !!! i) (s !!! Datatypes.S i)) →
  Sorted R s.
Proof.
  induction s as [|x s IH]; intros Hs; [constructor|].
  constructor.
  - apply IH. intros i Hi. apply (Hs (Datatypes.S i)). cbn [length]. lia.
  - destruct s as [|y s]; constructor. apply (Hs 0%nat). cbn [length]. lia.
Qed.

(** A property that holds on an initial segment of [0, n) lets go somewhere. *)
Lemma first_failure (P : nat → Prop) `{∀ p, Decision (P p)} (n : nat) :
  ∃ j, (j ≤ n)%nat ∧ (∀ p, (p < j)%nat → P p) ∧ ((j < n)%nat → ¬ P j).
Proof.
  induction n as [|n (j & Hj & Hlt & Hge)].
  - exists 0%nat. repeat split; lia.
  - destruct (decide (j < n)%nat) as [Hjn|Hjn].
    + exists j. split; [lia|]. split; [done|]. intros _. by apply Hge.
    + assert (j = n) as -> by lia. destruct (decide (P n)) as [HP|HP].
      * exists (Datatypes.S n). split; [lia|]. split; [|lia].
        intros p Hp. destruct (decide (p = n)) as [->|]; [done|]. apply Hlt. lia.
      * exists n. split; [lia|]. split; [done|]. by intros _.
Qed.

Section cross_halves.
Variables (l r : list Z).
Hypothesis length_r : length r = length l.
Hypothesis l_sorted : ascending l.
Hypothesis r_sorted : ascending r.

Lemma cross_low p :
  (p < length l)%nat →
  cross l r !!! p = Z.min (l !!! p) (r !!! (length l - 1 - p)%nat).
Proof.
  intros Hp. rewrite cross_total by lia. unfold cross_slot.
  replace (p <? length l)%nat with true by lia. done.
Qed.

Lemma cross_high p :
  (p < length l)%nat →
  cross l r !!! (length l + p)%nat
  = Z.max (l !!! (length l - 1 - p)%nat) (r !!! p).
Proof.
  intros Hp. rewrite cross_total by lia. unfold cross_slot.
  replace (length l + p <? length l)%nat with false by lia.
  f_equal; f_equal; lia.
Qed.

Lemma cross_low_rise_fall : rise_fall (take (length l) (cross l r)).
Proof.
  destruct (first_failure (λ p, l !!! p ≤ r !!! (length l - 1 - p)%nat) (length l))
    as (j & Hj & Hlt & Hge).
  assert (Hlen : length (take (length l) (cross l r)) = length l).
  { rewrite length_take, length_cross. lia. }
  (* from [j] on the minimum is the slot of [r] *)
  assert (Hr : ∀ p, (j ≤ p < length l)%nat →
            r !!! (length l - 1 - p)%nat ≤ l !!! p).
  { intros p Hp.
    pose proof (l_sorted j p). pose proof (r_sorted (length l - 1 - p)%nat (length l - 1 - j)%nat).
    lia. }
  apply Exists_exists. exists j. split; [apply elem_of_seq; lia|]. split.
  - apply Sorted_adjacent. intros i Hi. rewrite length_take, Hlen in Hi.
    rewrite !lookup_total_take_lt by lia. rewrite !cross_low by lia.
    rewrite !Z.min_l by (apply Hlt; lia). apply l_sorted; lia.
  - apply Sorted_adjacent. intros i Hi. rewrite length_drop, Hlen in Hi.
    rewrite !lookup_total_drop. rewrite !lookup_total_take_lt by lia.
    rewrite !cross_low by lia.
    rewrite !Z.min_r by (apply Hr; lia). apply r_sorted; lia.
Qed.

Lemma cross_high_fall_rise : fall_rise (drop (length l) (cross l r)).
Proof.
  destruct (first_failure (λ p, r !!! p ≤ l !!! (length l - 1 - p)%nat) (length l))
    as (j & Hj & Hlt & Hge).
  assert (Hlen : length (drop (length l) (cross l r)) = length l).
  { rewrite length_drop, length_cross. lia. }
  (* from [j] on the maximum is the slot of [r] *)
  assert (Hr : ∀ p, (j ≤ p < length l)%nat →
            l !!! (length l - 1 - p)%nat ≤ r !!! p).
  { intros p Hp.
    pose proof (r_sorted j p). pose proof (l_sorted (length l - 1 - p)%nat (length l - 1 - j)%nat).
    lia. }
  apply Exists_exists. exists j. split; [apply elem_of_seq; lia|]. split.
  - apply Sorted_adjacent. intros i Hi. rewrite length_take, Hlen in Hi.
    rewrite !lookup_total_take_lt by lia. rewrite !lookup_total_drop.
    rewrite !cross_high by lia.
    rewrite !Z.max_l by (apply Hlt; lia). apply l_sorted; lia.
  - apply Sorted_adjacent. intros i Hi. rewrite length_drop, Hlen in Hi.
    rewrite !lookup_total_drop. rewrite !cross_high by lia.
    rewrite !Z.max_r by (apply Hr; lia). apply r_sorted; lia.
Qed.
End cross_halves.

(** C8, amended: after the cross phase on two non-decreasing runs of equal
    length m (with 2m an [int]), the low half of the buffer rises and then
    falls, the high half falls and then rises, so each half is bitonic, and
    every slot of the low half is at most every slot of the high half. *)
Theorem cross_phase_halves_bitonic (l r : list Z) :
  length r = length l → Z.of_nat (2 * length l) ≤ INT_MAX →
  Sorted Z.le l → Sorted Z.le r →
  ∃ buf, cross_phase l r = Done buf
    ∧ length buf = (2 * length l)%nat
    ∧ rise_fall (take (length l) buf) ∧ fall_rise (drop (length l) buf)
    ∧ bitonic (take (length l) buf) ∧ bitonic (drop (length l) buf)
    ∧ ∀ p q, (p < length l)%nat → (length l ≤ q < 2 * length l)%nat →
        buf !!! p ≤ buf !!! q.
Proof.
  intros Hr Hmax Hl Hsr. apply Sorted_ascending in Hl, Hsr.
  exists (cross l r). split; [by apply cross_phase_eq|].
  split; [apply length_cross|].
  pose proof (cross_low_rise_fall l r Hr Hl Hsr) as Hlow.
  pose proof (cross_high_fall_rise l r Hr Hl Hsr) as Hhigh.
  split; [done|]. split; [done|].
  split; [by apply rise_fall_bitonic|]. split; [by apply fall_rise_bitonic|].
  intros p q Hp Hq.
  apply (cross_ordered l r Hr Hl Hsr 1%nat); rewrite ?length_cross; lia.
Qed.

Lemma cross_phase_halves_bitonic_witness :
  length [2; 3; 4; 7] = length [1; 5; 6; 9]
  ∧ Z.of_nat (2 * length [1; 5; 6; 9]) ≤ INT_MAX
  ∧ Sorted Z.le [1; 5; 6; 9] ∧ Sorted Z.le [2; 3; 4; 7]
  ∧ ∃ buf, cross_phase [1; 5; 6; 9] [2; 3; 4; 7] = Done buf
           ∧ bitonic (take 4 buf) ∧ bitonic (drop 4 buf).
Proof.
  assert (H1 : length [2; 3; 4; 7] = length [1; 5; 6; 9]) by reflexivity.
  assert (H2 : Z.of_nat (2 * length [1; 5; 6; 9]) ≤ INT_MAX)
    by (unfold INT_MAX; simpl; lia).
  assert (H3 : Sorted Z.le [1; 5; 6; 9])
    by (repeat first [apply Sorted_cons | apply Sorted_nil | apply HdRel_cons
                     | apply HdRel_nil | lia]).
  assert (H4 : Sorted Z.le [2; 3; 4; 7])
    by (repeat first [apply Sorted_cons | apply Sorted_nil | apply HdRel_cons
                     | apply HdRel_nil | lia]).
  split; [exact H1|]. split; [exact H2|]. split; [exact H3|]. split; [exact H4|].
  destruct (cross_phase_halves_bitonic _ _ H1 H2 H3 H4)
    as (buf & Hbuf & _ & _ & _ & Hb1 & Hb2 & _).
  exists buf. split; [exact Hbuf|]. split; [exact Hb1|exact Hb2].
Defined.

(** ** The network built by the top-level task *)

Lemma pairwise_tabulate {A B} `{Inhabited A} (F : A → A → B) (c : nat) (xs : list A) :
  length xs = (2 * c)%nat →
  map (λ j, F (xs !!! (2 * j)%nat) (xs !!! (2 * j + 1)%nat)) (seq 0 c) = pairwise F xs.
Proof.
  revert xs. induction c as [|c IH]; intros xs Hxs.
  - destruct xs; [done|]. cbn [length] in Hxs. lia.
  - destruct xs as [|a [|b xs]]; cbn [length] in Hxs; try lia.
    cbn [seq map pairwise]. f_equal.
    rewrite <- (IH xs) by lia. rewrite <- fmap_S_seq, <- list_fmap_compose.
    apply map_ext. intros j. cbn [compose].
    replace (2 * Datatypes.S j)%nat with (Datatypes.S (Datatypes.S (2 * j))) by lia.
    replace (Datatypes.S (Datatypes.S (2 * j)) + 1)%nat
      with (Datatypes.S (Datatypes.S (2 * j + 1))) by lia.
    done.
Qed.

Lemma length_pairwise {A B} (F : A → A → B) (c : nat) (xs : list A) :
  length xs = (2 * c)%nat → length (pairwise F xs) = c.
Proof.
  revert xs. induction c as [|c IH]; intros xs Hxs.
  - destruct xs as [|a [|b xs]]; cbn [length] in Hxs; try lia. done.
  - destruct xs as [|a [|b xs]]; cbn [length] in Hxs; try lia.
    cbn [pairwise length]. rewrite IH; lia.
Qed.

Lemma pairwise_two_sorter_ok (c : nat) (s : list Z) :
  length s = (2 * c)%nat → level_ok 1 s (pairwise two_sorter s).
Proof.
  revert s. induction c as [|c IH]; intros s Hs.
  - destruct s; [|cbn [length] in Hs; lia]. split; [constructor|done].
  - destruct s as [|a [|b s]]; cbn [length] in Hs; try lia.
    destruct (IH s) as [IH1 IH2]; [lia|].
    cbn [pairwise]. split.
    + constructor; [|done]. split; [done|].
      unfold two_sorter. repeat constructor. lia.
    + cbn [concat]. rewrite IH2. unfold two_sorter.
      destruct (Z.le_ge_cases a b).
      * rewrite Z.min_l, Z.max_r by lia. done.
      * rewrite Z.min_r, Z.max_l by lia. cbn [app]. apply Permutation_swap.
Qed.

Lemma pairwise_merge_ok (i c : nat) (padded : list Z) (runs : list (list Z)) :
  length runs = (2 * c)%nat → level_ok i padded runs →
  level_ok (Datatypes.S i) padded (pairwise (bitonic_merge i) runs).
Proof.
  revert runs padded. induction c as [|c IH]; intros runs padded Hlen [Hruns Hperm].
  - destruct runs; [|cbn [length] in Hlen; lia]. split; [constructor|done].
  - destruct runs as [|a [|b runs]]; cbn [length] in Hlen; try lia.
    apply Forall_cons in Hruns as [[Ha1 Ha2] Hruns].
    apply Forall_cons in Hruns as [[Hb1 Hb2] Hruns].
    destruct (IH runs (concat runs)) as [IH1 IH2]; [lia|by split|].
    cbn [pairwise]. split.
    + constructor; [|done]. split.
      * unfold bitonic_merge. rewrite length_clean_rounds, length_cross, Ha1.
        rewrite Nat.pow_succ_r'. lia.
      * by apply bitonic_merge_sorted.
    + cbn [concat] in *. rewrite IH2, bitonic_merge_perm by done.
      by rewrite <- Hperm, <- app_assoc.
Qed.

(** Loops that push one result per iteration and count them in [j]. *)
Lemma foldM_push_counter {A B} (body : A → Z * list B → outcome (Z * list B))
    (f : nat → B) (xs : list A) :
  (∀ x j acc, (j < length xs)%nat →
     body x (Z.of_nat j, acc) = Done (Z.of_nat (Datatypes.S j), acc ++ [f j])) →
  foldM body xs (0, []) = Done (Z.of_nat (length xs), map f (seq 0 (length xs))).
Proof.
  intros Hbody.
  assert (G : ∀ ys n acc, (n + length ys = length xs)%nat →
    foldM body ys (Z.of_nat n, acc)
    = Done (Z.of_nat (n + length ys), acc ++ map f (seq n (length ys)))).
  { induction ys as [|y ys IH]; intros n acc Hn.
    - cbn. rewrite app_nil_r. do 3 f_equal. lia.
    - cbn [foldM length] in *. rewrite Hbody by lia. cbn [mbind outcome_bind].
      rewrite IH by lia. cbn [seq map]. rewrite <- app_assoc. cbn [app].
      do 3 f_equal. lia. }
  apply (G xs 0%nat []). done.
Qed.

Lemma first_swaps_eq (c : nat) (s : list Z) :
  length s = (2 * c)%nat → Z.of_nat (2 * c) < INT_MAX →
  first_swaps (Z.of_nat (2 * c)) s = Done (pairwise two_sorter s).
Proof.
  intros Hs Hmax. unfold first_swaps. unfold INT_MAX in Hmax.
  change (λ lo : Z, int_add lo 2) with (λ lo : Z, int_add lo (Z.of_nat 2)).
  rewrite for_strided; [|lia|unfold budget; lia|unfold INT_MAX; lia].
  rewrite (foldM_push _ (λ k, two_sorter (s !!! (2 * k)%nat) (s !!! (2 * k + 1)%nat))).
  2:{ intros k acc Hk. apply elem_of_seq in Hk.
      rewrite vec_get_total by lia. cbn [mbind outcome_bind].
      change 1 with (Z.of_nat 1). rewrite int_add_nat by (unfold INT_MAX; lia).
      rewrite vec_get_total by lia. cbn [mbind outcome_bind].
      by rewrite launch_single_swap_eq. }
  cbn [app]. f_equal. by apply pairwise_tabulate.
Qed.

Lemma back_last {A} (v : list A) x : last v = Some x → back v = Done x.
Proof. intros H. unfold back. by rewrite H. Qed.

Lemma merge_round_eq (i c total : nat) (iterResults : list (list (list Z)))
    (runs : list (list Z)) :
  total = (2 ^ Datatypes.S i * c)%nat →
  last iterResults = Some runs → length runs = (2 * c)%nat → (0 < c)%nat →
  Forall (λ run, length run = (2 ^ i)%nat) runs →
  Z.of_nat total ≤ INT_MAX →
  for_ (budget (Z.of_nat total)) 0
    (λ lo, lo <? Z.of_nat total)
    (λ lo, int_add lo (Z.of_nat (2 ^ Datatypes.S i)))
    (λ lo st,
       prev ← back iterResults;
       f1 ← vec_get prev (int_mul st.1 2);
       f2 ← vec_get prev (int_add (int_mul st.1 2) 1);
       res ← launch_subsorter f1 f2;
       Done (int_add st.1 1, st.2 ++ [res])) (0, [])
  = Done (Z.of_nat c, pairwise (bitonic_merge i) runs).
Proof.
  intros -> Hlast Hlen Hc Hruns Hmax.
  assert (Hpos : (0 < 2 ^ i)%nat) by (apply Nat.neq_0_lt_0, Nat.pow_nonzero; lia).
  rewrite Nat.pow_succ_r' in *. unfold INT_MAX in Hmax.
  rewrite for_strided; [|lia|unfold budget; nia|unfold INT_MAX; lia].
  rewrite (foldM_push_counter _
    (λ j, bitonic_merge i (runs !!! (2 * j)%nat) (runs !!! (2 * j + 1)%nat))).
  2:{ intros x j acc Hj. rewrite length_seq in Hj. cbn [fst snd].
      rewrite (back_last _ _ Hlast). cbn [mbind outcome_bind].
      assert (Hj2 : int_mul (Z.of_nat j) 2 = Z.of_nat (2 * j)).
      { unfold int_mul. rewrite wrap32_id; [lia|].
        unfold is_int, INT_MIN, INT_MAX. nia. }
      rewrite Hj2. change 1 with (Z.of_nat 1).
      rewrite !int_add_nat by (unfold INT_MAX; nia).
      rewrite (vec_get_nat runs (2 * j) (runs !!! (2 * j)%nat))
        by (apply list_lookup_lookup_total_lt; lia).
      cbn [mbind outcome_bind].
      rewrite (vec_get_nat runs (2 * j + 1) (runs !!! (2 * j + 1)%nat))
        by (apply list_lookup_lookup_total_lt; lia).
      cbn [mbind outcome_bind].
      rewrite Forall_lookup in Hruns.
      rewrite (launch_subsorter_eq i).
      - cbn [mbind outcome_bind]. do 3 f_equal. lia.
      - apply (Hruns (2 * j)%nat). apply list_lookup_lookup_total_lt. lia.
      - apply (Hruns (2 * j + 1)%nat). apply list_lookup_lookup_total_lt. lia.
      - unfold INT_MAX. nia. }
  rewrite length_seq. do 2 f_equal. by apply pairwise_tabulate.
Qed.

Lemma int_shl_pow2 (i : nat) :
  Z.of_nat (2 ^ Datatypes.S i) ≤ INT_MAX →
  int_shl (Z.of_nat (2 ^ i)) 1 = Z.of_nat (2 ^ Datatypes.S i).
Proof.
  intros H. unfold int_shl. rewrite Z.shiftl_mul_pow2 by lia.
  rewrite Nat.pow_succ_r' in *. rewrite wrap32_id; [lia|].
  unfold is_int, INT_MIN, INT_MAX in *. lia.
Qed.

Lemma merge_rounds_loop (d : nat) :
  ∀ (i fuel : nat) (iterResults : list (list (list Z))) (runs : list (list Z))
    (padded : list Z),
    (d < fuel)%nat →
    last iterResults = Some runs → length runs = (2 ^ d)%nat →
    level_ok i padded runs →
    Z.of_nat (2 ^ Datatypes.S (i + d)) ≤ INT_MAX →
    ∃ iterResults' run,
      for_ fuel (Z.of_nat (2 ^ Datatypes.S i))
        (λ gap, gap <=? Z.of_nat (2 ^ (i + d))) (λ gap, int_shl gap 1)
        (λ gap iterResults,
           r ← for_ (budget (Z.of_nat (2 ^ (i + d)))) 0
                 (λ lo, lo <? Z.of_nat (2 ^ (i + d))) (λ lo, int_add lo gap)
                 (λ lo st,
                    prev ← back iterResults;
                    f1 ← vec_get prev (int_mul st.1 2);
                    f2 ← vec_get prev (int_add (int_mul st.1 2) 1);
                    res ← launch_subsorter f1 f2;
                    Done (int_add st.1 1, st.2 ++ [res])) (0, []);
           Done (iterResults ++ [r.2])) iterResults
      = Done iterResults'
      ∧ last iterResults' = Some [run]
      ∧ level_ok (i + d) padded [run].
Proof.
  induction d as [|d IH]; intros i fuel iterResults runs padded Hfuel Hlast Hlen Hok Hmax.
  - destruct fuel as [|fuel]; [lia|]. rewrite for_unfold.
    rewrite Nat.add_0_r in *.
    replace (Z.of_nat (2 ^ Datatypes.S i) <=? Z.of_nat (2 ^ i)) with false
      by (rewrite Nat.pow_succ_r';
          assert (0 < 2 ^ i)%nat by (apply Nat.neq_0_lt_0, Nat.pow_nonzero; lia); lia).
    destruct runs as [|run [|? ?]]; cbn in Hlen; try lia.
    exists iterResults, run. done.
  - destruct fuel as [|fuel]; [lia|]. rewrite for_unfold.
    assert (Hpos : ∀ n, (0 < 2 ^ n)%nat)
      by (intros n; apply Nat.neq_0_lt_0, Nat.pow_nonzero; lia).
    assert (Hle : (2 ^ Datatypes.S i ≤ 2 ^ (i + Datatypes.S d))%nat)
      by (apply Nat.pow_le_mono_r; lia).
    replace (Z.of_nat (2 ^ Datatypes.S i) <=? Z.of_nat (2 ^ (i + Datatypes.S d)))
      with true by lia.
    assert (Htot : (2 ^ (i + Datatypes.S d) = 2 ^ Datatypes.S i * 2 ^ d)%nat).
    { rewrite <- Nat.pow_add_r. f_equal. lia. }
    assert (Hmax' : Z.of_nat (2 ^ (i + Datatypes.S d)) ≤ INT_MAX).
    { rewrite Nat.pow_succ_r' in Hmax. lia. }
    assert (Hlen2 : length runs = (2 * 2 ^ d)%nat)
      by (by rewrite Hlen, Nat.pow_succ_r').
    assert (Hlens : Forall (λ run : list Z, length run = (2 ^ i)%nat) runs).
    { destruct Hok as [Hok _]. eapply Forall_impl; [exact Hok|]. by intros ? [? _]. }
    rewrite (merge_round_eq i (2 ^ d) _ iterResults runs Htot Hlast Hlen2
               (Hpos d) Hlens Hmax').
    cbn [mbind outcome_bind snd].
    rewrite int_shl_pow2.
    2:{ assert (2 ^ Datatypes.S (Datatypes.S i) ≤ 2 ^ Datatypes.S (i + Datatypes.S d))%nat
          by (apply Nat.pow_le_mono_r; lia). lia. }
    destruct (IH (Datatypes.S i) fuel (iterResults ++ [pairwise (bitonic_merge i) runs])
                (pairwise (bitonic_merge i) runs) padded)
      as (iterResults' & run & Hloop & Hlast' & Hok').
    + lia.
    + apply last_snoc.
    + apply length_pairwise. rewrite Hlen, Nat.pow_succ_r'. done.
    + apply (pairwise_merge_ok i (2 ^ d)); [|done].
      rewrite Hlen, Nat.pow_succ_r'. done.
    + replace (Datatypes.S i + d)%nat with (i + Datatypes.S d)%nat by lia. done.
    + exists iterResults', run.
      replace (Datatypes.S i + d)%nat with (i + Datatypes.S d)%nat in * by lia.
      done.
Qed.

(** The sorted padded sequence starts with the sorted input. *)
Lemma sorted_prefix_of_padded (run nums : list Z) (d : nat) :
  Sorted Z.le run → run ≡ₚ nums ++ replicate d INT_MAX →
  Forall (λ x, x ≤ INT_MAX) nums →
  Sorted Z.le (take (length nums) run) ∧ take (length nums) run ≡ₚ nums.
Proof.
  intros Hrun Hperm Hmax.
  pose proof (merge_sort_Permutation Z.le nums) as Hms.
  assert (Heq : run = merge_sort Z.le nums ++ replicate d INT_MAX).
  { apply (Sorted_unique Z.le); [done| |by rewrite Hperm, Hms].
    apply StronglySorted_Sorted, StronglySorted_app_2.
    - intros x1 x2 H1 H2. apply elem_of_replicate in H2 as [-> _].
      rewrite Hms in H1. rewrite Forall_forall in Hmax. by apply Hmax.
    - apply Sorted_StronglySorted; [apply _|]. apply Sorted_merge_sort; apply _.
    - clear. induction d as [|d IH]; cbn [replicate]; constructor; [done|].
      apply Forall_forall. intros x Hx. apply elem_of_replicate in Hx as [-> _]. done. }
  rewrite Heq. rewrite <- (Permutation_length Hms), take_app_length.
  split; [apply Sorted_merge_sort; apply _|done].
Qed.

Lemma token_value_print (x : Z) :
  token_value (if x =? INT_MAX then Hash else Num x) = x.
Proof. destruct (Z.eqb_spec x INT_MAX) as [->|]; done. Qed.

Lemma tabulate_take (s : list Z) (n : nat) :
  (n ≤ length s)%nat → map (λ i, s !!! i) (seq 0 n) = take n s.
Proof.
  intros Hn. apply list_eq. intros i. rewrite list_lookup_fmap, lookup_take.
  destruct (decide (i < n)%nat) as [Hi|Hi].
  - rewrite lookup_seq_lt by done. cbn. symmetry.
    apply list_lookup_lookup_total_lt. lia.
  - by rewrite lookup_seq_ge by lia.
Qed.

Lemma print_myvec_eq (sorted : list Z) (n : nat) :
  (n ≤ length sorted)%nat → Z.of_nat n ≤ INT_MAX →
  ∃ toks, print_myvec sorted 0 (Z.of_nat n) = Done toks
          ∧ map token_value toks = take n sorted.
Proof.
  intros Hn Hmax. unfold print_myvec. rewrite Z.sub_0_r, for_nat by done.
  rewrite (foldM_push _ (λ i, if sorted !!! i =? INT_MAX then Hash else Num (sorted !!! i))).
  2:{ intros i acc Hi. apply elem_of_seq in Hi. by rewrite vec_get_total by lia. }
  eexists. split; [done|]. cbn [app]. rewrite map_map.
  rewrite <- (tabulate_take sorted n) by done.
  apply map_ext. intros i. apply token_value_print.
Qed.

(** On two or more inputs the top-level task prints the input in
    non-decreasing order: what it prints denotes a sorted permutation of the
    parsed integers ('#' standing for INT_MAX).  The bounds keep the argument
    index and the padded length within [int]. *)
Theorem top_level_task_sorts (args : list string) :
  Z.of_nat (length args) + 2 ≤ INT_MAX →
  2 ≤ Z.of_nat (length (positional args)) ≤ 2 ^ 29 →
  ∃ toks, top_level_task (command_line args) = Done toks
    ∧ Sorted Z.le (map token_value toks)
    ∧ map token_value toks ≡ₚ map atoi (positional args).
Proof.
  intros Hfit HN. unfold top_level_task.
  rewrite handle_inputs_eq by done. cbn [mbind outcome_bind].
  set (nums := map atoi (positional args)).
  assert (Hlen : length nums = length (positional args)) by apply length_map.
  rewrite <- Hlen in *.
  replace (0 <? Z.of_nat (length nums)) with true by lia.
  cbn [assert mbind outcome_bind].
  destruct (normalize_eq nums) as (p & (k & Hk & -> & Hle & Hmin) & Hnorm); [lia|].
  rewrite Hnorm. cbn [mbind outcome_bind].
  (* the padded length as a power of two in [nat] *)
  assert (Hk1 : 1 ≤ k).
  { destruct (Z.eq_dec k 0) as [->|]; [|lia]. change (2 ^ 0) with 1 in Hle. lia. }
  assert (Hk29 : 2 ^ k ≤ 2 ^ 29) by (apply Hmin; lia).
  assert (Hk29' : k ≤ 29).
  { destruct (Z_le_gt_dec k 29) as [|Hgt]; [done|].
    assert (2 ^ 30 ≤ 2 ^ k) by (apply Z.pow_le_mono_r; lia). lia. }
  set (d := Z.to_nat (k - 1)).
  assert (Hp : 2 ^ k = Z.of_nat (2 ^ (1 + d))).
  { rewrite Nat2Z.inj_pow. f_equal. lia. }
  assert (Hp2 : (2 ^ (1 + d) = 2 * 2 ^ d)%nat) by apply Nat.pow_succ_r'.
  set (padded := nums ++ replicate (Z.to_nat (2 ^ k) - length nums) INT_MAX).
  assert (Hpad : length padded = (2 * 2 ^ d)%nat).
  { unfold padded. rewrite length_app, length_replicate. lia. }
  (* round 0 *)
  rewrite Hp, Hp2.
  rewrite (first_swaps_eq (2 ^ d) padded Hpad) by (unfold INT_MAX; lia).
  cbn [mbind outcome_bind]. unfold after_first_swaps.
  (* the merge rounds *)
  destruct (merge_rounds_loop d 1 (budget 32) [pairwise two_sorter padded]
              (pairwise two_sorter padded) padded)
    as (iterResults' & run & Hloop & Hlast & [Hrun Hperm]).
  { unfold budget. change (Z.to_nat 32) with 32%nat. lia. }
  { done. }
  { by apply length_pairwise. }
  { by apply (pairwise_two_sorter_ok (2 ^ d)). }
  { replace (Datatypes.S (1 + d)) with (Z.to_nat (k + 1)) by lia.
    assert (Z.of_nat (2 ^ Z.to_nat (k + 1)) = 2 ^ (k + 1))
      by (rewrite Nat2Z.inj_pow; f_equal; lia).
    assert (2 ^ (k + 1) ≤ 2 ^ 30) by (apply Z.pow_le_mono_r; lia).
    unfold INT_MAX. lia. }
  rewrite <- Hp2.
  assert (Hmerge : merge_rounds (Z.of_nat (2 ^ (1 + d))) [pairwise two_sorter padded]
                   = Done iterResults') by exact Hloop.
  rewrite Hmerge. cbn [mbind outcome_bind].
  rewrite (back_last _ _ Hlast). cbn [mbind outcome_bind].
  change (size [run] =? 1) with true. cbn [assert mbind outcome_bind].
  change (vec_get [run] 0) with (Done run). cbn [mbind outcome_bind].
  apply Forall_cons in Hrun as [[Hrunlen Hsorted] _].
  cbn [concat] in Hperm. rewrite app_nil_r in Hperm.
  replace (size run =? wrap64u (Z.of_nat (2 ^ (1 + d)))) with true.
  2:{ unfold size. rewrite Hrunlen. symmetry. apply Z.eqb_refl. }
  cbn [assert mbind outcome_bind].
  (* printing the first [num_inputs] slots *)
  destruct (print_myvec_eq run (length nums)) as (toks & Hprint & Htoks).
  { rewrite Hrunlen. lia. }
  { unfold INT_MAX. lia. }
  exists toks. split; [done|]. rewrite Htoks.
  apply (sorted_prefix_of_padded run nums (Z.to_nat (2 ^ k) - length nums)); try done.
  apply Forall_forall. intros x Hx. unfold nums in Hx.
  apply list_elem_of_fmap in Hx as (a & -> & _).
  apply wrap32_is_int.
Qed.

Lemma top_level_task_sorts_witness :
  Z.of_nat (length ["3"; "1"; "-v"; "9"; "2"]%string) + 2 ≤ INT_MAX
  ∧ 2 ≤ Z.of_nat (length (positional ["3"; "1"; "-v"; "9"; "2"]%string)) ≤ 2 ^ 29
  ∧ ∃ toks, top_level_task (command_line ["3"; "1"; "-v"; "9"; "2"]%string) = Done toks
            ∧ Sorted Z.le (map token_value toks).
Proof.
  assert (H1 : Z.of_nat (length ["3"; "1"; "-v"; "9"; "2"]%string) + 2 ≤ INT_MAX)
    by (unfold INT_MAX; simpl; lia).
  assert (H2 : 2 ≤ Z.of_nat (length (positional ["3"; "1"; "-v"; "9"; "2"]%string))
               ≤ 2 ^ 29) by (simpl; lia).
  split; [exact H1|]. split; [exact H2|].
  destruct (top_level_task_sorts _ H1 H2) as (toks & Htoks & Hs & _).
  exists toks. split; [exact Htoks|exact Hs].
Defined.

Example top_level_task_eight :
  top_level_task (command_line ["3"; "1"; "4"; "1"; "5"; "9"; "2"; "6"]%string)
  = Done [Num 1; Num 1; Num 2; Num 3; Num 4; Num 5; Num 6; Num 9].
Proof. reflexivity. Qed.

Example top_level_task_three :
  top_level_task (command_line ["1"; "2"; "3"]%string) = Done [Num 1; Num 2; Num 3].
Proof. reflexivity. Qed.

(** C7, amended: arguments are not validated.  When no argument is a flag,
    input handling completes normally and every argument, numeric or not,
    becomes the integer [atoi] gives it, which is 0 for an argument without a
    leading number; with two or more arguments the task goes on to sort
    these integers. *)
Theorem non_numeric_argument_read_by_atoi (args : list string) :
  Z.of_nat (length args) + 2 ≤ INT_MAX →
  Forall (λ a, starts_with_dash a = false) args →
  handle_inputs (command_line args) = Done (Z.of_nat (length args), map atoi args)
  ∧ (∀ a, a ∈ args → leading_number a = false → atoi a = 0)
  ∧ (2 ≤ Z.of_nat (length args) ≤ 2 ^ 29 →
     ∃ toks, top_level_task (command_line args) = Done toks
             ∧ Sorted Z.le (map token_value toks)
             ∧ map token_value toks ≡ₚ map atoi args).
Proof.
  intros Hfit Hargs. pose proof (positional_no_flags args Hargs) as Hpos.
  split; [|split].
  - rewrite handle_inputs_eq by done. by rewrite Hpos.
  - intros a _. apply atoi_no_number.
  - intros Hlen.
    destruct (top_level_task_sorts args Hfit) as (toks & Htoks & Hsorted & Hperm).
    { by rewrite Hpos. }
    rewrite Hpos in Hperm. by exists toks.
Qed.

Lemma non_numeric_argument_read_by_atoi_witness :
  Z.of_nat (length ["7"; "abc"; "x1"]%string) + 2 ≤ INT_MAX
  ∧ Forall (λ a, starts_with_dash a = false) ["7"; "abc"; "x1"]%string
  ∧ 2 ≤ Z.of_nat (length ["7"; "abc"; "x1"]%string) ≤ 2 ^ 29
  ∧ handle_inputs (command_line ["7"; "abc"; "x1"]%string) = Done (3, [7; 0; 0])
  ∧ ∃ toks, top_level_task (command_line ["7"; "abc"; "x1"]%string) = Done toks
            ∧ Sorted Z.le (map token_value toks).
Proof.
  assert (H1 : Z.of_nat (length ["7"; "abc"; "x1"]%string) + 2 ≤ INT_MAX)
    by (unfold INT_MAX; simpl; lia).
  assert (H2 : Forall (λ a, starts_with_dash a = false) ["7"; "abc"; "x1"]%string)
    by (repeat constructor).
  assert (H3 : 2 ≤ Z.of_nat (length ["7"; "abc"; "x1"]%string) ≤ 2 ^ 29)
    by (simpl; lia).
  split; [exact H1|]. split; [exact H2|]. split; [exact H3|].
  destruct (non_numeric_argument_read_by_atoi _ H1 H2) as (Hin & _ & Hsort).
  split; [exact Hin|].
  destruct (Hsort H3) as (toks & Htoks & Hsorted & _).
  exists toks. split; [exact Htoks|exact Hsorted].
Defined.

(** With no input at all, [assert(num_inputs > 0)] stops the task. *)
Example top_level_task_no_input :
  top_level_task (command_line []) = Abort
  ∧ top_level_task (command_line ["-ll:cpu"; "4"]%string) = Abort.
Proof. split; reflexivity. Qed.

(** * Further properties of the code *)

(** ** Printing *)

Lemma token_value_print_token (x : Z) : token_value (print_token x) = x.
Proof. apply token_value_print. Qed.

Lemma print_token_Hash (x : Z) : print_token x = Hash ↔ x = INT_MAX.
Proof.
  unfold print_token. destruct (Z.eqb_spec x INT_MAX) as [->|Hx]; split; try done.
Qed.

(** A loop stops with the first iteration that fails. *)
Lemma foldM_undef {A S} (body : A → S → outcome S) (xs1 : list A) (x : A)
    (xs2 : list A) (s : S) :
  (∀ y s', y ∈ xs1 → ∃ s'', body y s' = Done s'') →
  (∀ s', body x s' = Undef) →
  foldM body (xs1 ++ x :: xs2) s = Undef.
Proof.
  revert s. induction xs1 as [|y xs1 IH]; intros s Hok Hbad.
  - cbn [app foldM]. by rewrite Hbad.
  - cbn [app foldM]. destruct (Hok y s) as [s'' Hs'']; [left|].
    rewrite Hs''. cbn [mbind outcome_bind]. apply IH; [|done].
    intros z s' Hz. apply Hok. by right.
Qed.

Lemma print_myvec_counter (sorted : list Z) (a b : nat) :
  (a ≤ b)%nat → Z.of_nat b ≤ INT_MAX →
  print_myvec sorted (Z.of_nat a) (Z.of_nat b)
  = foldM (λ k out, x ← vec_get sorted (Z.of_nat (a + k));
                    Done (out ++ [if x =? INT_MAX then Hash else Num x]))
      (seq 0 (b - a)) [].
Proof.
  intros Hab Hmax. unfold print_myvec. unfold INT_MAX in Hmax.
  rewrite (for_counter (b - a)); unfold budget, INT_MIN, INT_MAX; try lia.
  unfold counter_values. rewrite foldM_fmap.
  apply foldM_ext. intros k out _.
  replace (Z.of_nat a + 1 * Z.of_nat k) with (Z.of_nat (a + k)) by lia. done.
Qed.

Lemma print_myvec_range_eq (sorted : list Z) (a b : nat) :
  (a ≤ b)%nat → (b ≤ length sorted)%nat → Z.of_nat b ≤ INT_MAX →
  print_myvec sorted (Z.of_nat a) (Z.of_nat b)
  = Done (map print_token (take (b - a) (drop a sorted))).
Proof.
  intros Hab Hb Hmax. rewrite print_myvec_counter by done.
  rewrite (foldM_push _ (λ k, print_token (sorted !!! (a + k)%nat))).
  2:{ intros k acc Hk. apply elem_of_seq in Hk. by rewrite vec_get_total by lia. }
  cbn [app]. f_equal.
  rewrite <- (tabulate_take (drop a sorted) (b - a)) by (rewrite length_drop; lia).
  rewrite map_map. apply map_ext. intros k. by rewrite lookup_total_drop.
Qed.

Lemma map_token_value_print (s : list Z) : map token_value (map print_token s) = s.
Proof.
  rewrite map_map. rewrite <- (map_id s) at 2.
  apply map_ext. intros x. apply token_value_print_token.
Qed.

(** Within the vector, [print_myvec(sorted, start, end)] writes one token per
    slot of [start, end), in order, '#' exactly for the slots that hold
    INT_MAX; the tokens denote the slots read. *)
Theorem print_myvec_in_range (sorted : list Z) (a b : nat) :
  (a ≤ b)%nat → (b ≤ length sorted)%nat → Z.of_nat b ≤ INT_MAX →
  ∃ toks, print_myvec sorted (Z.of_nat a) (Z.of_nat b) = Done toks
    ∧ toks = map print_token (take (b - a) (drop a sorted))
    ∧ length toks = (b - a)%nat
    ∧ map token_value toks = take (b - a) (drop a sorted)
    ∧ ∀ i, (i < b - a)%nat →
        (toks !! i = Some Hash ↔ sorted !! (a + i)%nat = Some INT_MAX).
Proof.
  intros Hab Hb Hmax. eexists. split; [by apply print_myvec_range_eq|].
  split; [done|].
  split; [rewrite length_map, length_take, length_drop; lia|].
  split; [apply map_token_value_print|].
  intros i Hi. rewrite list_lookup_fmap, lookup_take_lt, lookup_drop by done.
  destruct (sorted !! (a + i)%nat) as [x|] eqn:Hx; cbn; [|done].
  split.
  - intros [= H]. apply print_token_Hash in H. by subst.
  - intros [= ->]. done.
Qed.

Lemma print_myvec_in_range_witness :
  (1 ≤ 3)%nat ∧ (3 ≤ length [7; INT_MAX; 9; 4]%Z)%nat ∧ Z.of_nat 3 ≤ INT_MAX
  ∧ print_myvec [7; INT_MAX; 9; 4] 1 3 = Done [Hash; Num 9].
Proof.
  assert (H1 : (1 ≤ 3)%nat) by lia.
  assert (H2 : (3 ≤ length [7; INT_MAX; 9; 4]%Z)%nat) by (simpl; lia).
  assert (H3 : Z.of_nat 3 ≤ INT_MAX) by (unfold INT_MAX; lia).
  split; [exact H1|]. split; [exact H2|]. split; [exact H3|].
  destruct (print_myvec_in_range [7; INT_MAX; 9; 4] 1 3 H1 H2 H3)
    as (toks & Hrun & -> & _).
  exact Hrun.
Defined.

(** When the range [start, end) is not empty and [end] lies beyond the
    vector, [print_myvec] reads a slot outside the vector. *)
Theorem print_myvec_beyond_end (sorted : list Z) (a b : nat) :
  (a < b)%nat → (length sorted < b)%nat → Z.of_nat b ≤ INT_MAX →
  print_myvec sorted (Z.of_nat a) (Z.of_nat b) = Undef.
Proof.
  intros Hab Hb Hmax. rewrite print_myvec_counter by (done || lia).
  set (k0 := (Nat.max a (length sorted) - a)%nat).
  assert (Hseq : seq 0 (b - a) = seq 0 k0 ++ k0 :: seq (Datatypes.S k0) (b - a - k0 - 1)).
  { replace (b - a)%nat with (k0 + Datatypes.S (b - a - k0 - 1))%nat at 1 by lia.
    rewrite seq_app. cbn [seq]. done. }
  rewrite Hseq. apply foldM_undef.
  - intros k out Hk. apply elem_of_seq in Hk.
    rewrite vec_get_total by lia. cbn [mbind outcome_bind]. by eexists.
  - intros out. unfold vec_get.
    replace (0 <=? Z.of_nat (a + k0)) with true by lia.
    rewrite Nat2Z.id, lookup_ge_None_2 by lia. done.
Qed.

Lemma print_myvec_beyond_end_witness :
  (0 < 3)%nat ∧ (length [7; 9]%Z < 3)%nat ∧ Z.of_nat 3 ≤ INT_MAX
  ∧ print_myvec [7; 9] 0 3 = Undef.
Proof.
  assert (H1 : (0 < 3)%nat) by lia.
  assert (H2 : (length [7; 9]%Z < 3)%nat) by (simpl; lia).
  assert (H3 : Z.of_nat 3 ≤ INT_MAX) by (unfold INT_MAX; lia).
  split; [exact H1|]. split; [exact H2|]. split; [exact H3|].
  exact (print_myvec_beyond_end [7; 9] 0 3 H1 H2 H3).
Defined.

(** ** The codec on arbitrary buffers *)

Lemma Z_of_byte_bound (b : byte) : 0 ≤ Z_of_byte b < 256.
Proof.
  unfold Z_of_byte. pose proof (Byte.to_N_bounded b). lia.
Qed.

Lemma byte_of_Z_of_byte (b : byte) : byte_of_Z (Z_of_byte b) = b.
Proof.
  unfold byte_of_Z. rewrite Z.mod_small by apply Z_of_byte_bound.
  unfold Z_of_byte. rewrite N2Z.id, Byte.of_to_N. done.
Qed.

Lemma byte_of_Z_add (b : byte) (z : Z) : byte_of_Z (Z_of_byte b + 256 * z) = b.
Proof.
  rewrite <- (byte_of_Z_of_byte b) at 2. unfold byte_of_Z.
  replace ((Z_of_byte b + 256 * z) mod 256) with (Z_of_byte b mod 256); [done|].
  rewrite (Z.mul_comm 256 z). by rewrite Z_mod_plus_full.
Qed.

(** Storing the value of [n] bytes writes those bytes, whatever is added
    above them. *)
Lemma store_load_le (bs : list byte) (k : Z) :
  store_le (length bs) (load_le bs + 256 ^ Z.of_nat (length bs) * k) = bs.
Proof.
  induction bs as [|b bs IH]; [done|].
  cbn [length store_le load_le].
  rewrite Nat2Z.inj_succ, Z.pow_succ_r by lia.
  replace (Z_of_byte b + 256 * load_le bs + 256 * 256 ^ Z.of_nat (length bs) * k)
    with (Z_of_byte b + 256 * (load_le bs + 256 ^ Z.of_nat (length bs) * k)) by lia.
  rewrite byte_of_Z_add. f_equal.
  etransitivity; [|exact IH]. f_equal.
  pose proof (Z_of_byte_bound b).
  symmetry. apply (Z.div_unique _ 256 _ (Z_of_byte b)); lia.
Qed.

Lemma load_le_bound (bs : list byte) : 0 ≤ load_le bs < 256 ^ Z.of_nat (length bs).
Proof.
  induction bs as [|b bs IH]; [cbn; lia|].
  cbn [length load_le]. rewrite Nat2Z.inj_succ, Z.pow_succ_r by lia.
  pose proof (Z_of_byte_bound b). lia.
Qed.

Lemma wrap32_shift (z : Z) : ∃ k, wrap32 z = z + 2 ^ 32 * k.
Proof.
  exists (- ((z + 2 ^ 31) / 2 ^ 32)). unfold wrap32.
  pose proof (Z.div_mod (z + 2 ^ 31) (2 ^ 32)). lia.
Qed.

Lemma store_wrap32_load (bs : list byte) :
  length bs = 4%nat → store_le 4 (wrap32 (load_le bs)) = bs.
Proof.
  intros Hlen. destruct (wrap32_shift (load_le bs)) as [k ->].
  pose proof (store_load_le bs k) as H. rewrite Hlen in H. exact H.
Qed.

Lemma read_bytes_done (buffer : list byte) (off n : Z) (bs : list byte) :
  0 ≤ n → read_bytes buffer off n = Done bs →
  0 ≤ off ∧ off + n ≤ Z.of_nat (length buffer)
  ∧ bs = take (Z.to_nat n) (drop (Z.to_nat off) buffer)
  ∧ length bs = Z.to_nat n.
Proof.
  intros Hn. unfold read_bytes.
  destruct ((0 <=? off) && (off + n <=? Z.of_nat (length buffer))) eqn:E; [|done].
  apply andb_true_iff in E as [E1 E2]. intros [= <-].
  split; [lia|]. split; [lia|]. split; [done|].
  rewrite length_take, length_drop. lia.
Qed.


(** What a successful run of the element loop of [legion_deserialize] has
    read. *)
Lemma read_elems_done (n : nat) :
  ∀ (buffer : list byte) (off : Z) (v : MyVec) (off' : Z),
  Z.of_nat (length buffer) < 2 ^ 64 → 0 ≤ off ≤ Z.of_nat (length buffer) →
  read_elems n buffer off = Done (v, off') →
  off' = off + sizeof_int * Z.of_nat n
  ∧ off' ≤ Z.of_nat (length buffer)
  ∧ length v = n
  ∧ Forall is_int v
  ∧ elem_bytes v = take (4 * n) (drop (Z.to_nat off) buffer).
Proof.
  induction n as [|n IH]; intros buffer off v off' Hbuf Hoff.
  - cbn [read_elems]. intros [= <- <-].
    split; [unfold sizeof_int; lia|]. split; [lia|].
    split; [done|]. split; [constructor|]. by rewrite Nat.mul_0_r, take_0.
  - cbn [read_elems]. unfold read_int.
    destruct (read_bytes buffer off sizeof_int) as [bs| | |] eqn:Hbs; try done.
    apply read_bytes_done in Hbs as (_ & Hfit & Hbs & Hlen); [|unfold sizeof_int; lia].
    cbn [mbind outcome_bind].
    unfold sizeof_int in Hfit.
    rewrite wrap64u_id by (unfold sizeof_int; lia).
    destruct (read_elems n buffer (off + sizeof_int)) as [[v' o']| | |] eqn:Hrest; try done.
    cbn [mbind outcome_bind fst snd]. intros [= <- <-].
    apply IH in Hrest as (Ho' & Hle & Hlen' & Hint & Hbytes);
      [|done|unfold sizeof_int; lia].
    split; [unfold sizeof_int in *; lia|]. split; [done|].
    split; [cbn [length]; by rewrite Hlen'|].
    split; [constructor; [apply wrap32_is_int|done]|].
    unfold elem_bytes. cbn [flat_map]. fold (elem_bytes v').
    change (Z.to_nat sizeof_int) with 4%nat in *.
    rewrite store_wrap32_load by done. rewrite Hbytes, Hbs.
    replace (Z.to_nat (off + sizeof_int)) with (Z.to_nat off + 4)%nat
      by (unfold sizeof_int; lia).
    rewrite <- drop_drop.
    replace (4 * Datatypes.S n)%nat with (4 + 4 * n)%nat by lia.
    by rewrite take_take_drop.
Qed.


Lemma read_size_t_header (n : Z) (rest : list byte) :
  0 ≤ n < 2 ^ 64 → read_size_t (store_le 8 n ++ rest) 0 = Done n.
Proof.
  intros Hn. unfold read_size_t, read_bytes, sizeof_size_t.
  rewrite length_app, length_store_le.
  replace ((0 <=? 0) && (0 + 8 <=? Z.of_nat (8 + length rest))) with true
    by (symmetry; apply andb_true_iff; lia).
  change (Z.to_nat 8) with 8%nat. change (Z.to_nat 0) with 0%nat.
  rewrite drop_0, take_store_le_app. cbn [mbind outcome_bind].
  by rewrite load_store_size_t.
Qed.

(** [legion_deserialize] reads the image of a vector from the front of a
    buffer and leaves what follows it alone: the vector comes back, with the
    number of bytes of the image. *)
Theorem legion_deserialize_ignores_rest (s : MyVec) (rest : list byte) :
  Forall is_int s → addressable s →
  legion_deserialize ((legion_serialize s).1 ++ rest)
  = Done (s, sizeof_size_t + sizeof_int * Z.of_nat (length s)).
Proof.
  intros Hint Ha. rewrite legion_serialize_eq by done. cbn [fst].
  pose proof Ha as Ha'. unfold addressable, sizeof_size_t, sizeof_int in Ha'.
  unfold legion_deserialize. rewrite <- app_assoc.
  rewrite read_size_t_header by lia. cbn [mbind outcome_bind].
  rewrite Nat2Z.id.
  pose proof (read_elems_at s (store_le 8 (Z.of_nat (length s))) rest) as H.
  rewrite length_store_le in H. rewrite map_wrap32_id in H by done.
  apply H. unfold sizeof_int. lia.
Qed.

Lemma legion_deserialize_ignores_rest_witness :
  Forall is_int [3; -1; INT_MAX] ∧ addressable [3; -1; INT_MAX]
  ∧ legion_deserialize ((legion_serialize [3; -1; INT_MAX]).1 ++ [x2a; xff])
    = Done ([3; -1; INT_MAX], 20).
Proof.
  assert (H1 : Forall is_int [3; -1; INT_MAX])
    by (repeat constructor; unfold INT_MIN, INT_MAX; lia).
  assert (H2 : addressable [3; -1; INT_MAX])
    by (unfold addressable, sizeof_size_t, sizeof_int; simpl; lia).
  split; [exact H1|]. split; [exact H2|].
  exact (legion_deserialize_ignores_rest [3; -1; INT_MAX] [x2a; xff] H1 H2).
Defined.

(** Whatever buffer [legion_deserialize] accepts, the vector it returns holds
    [int]s, the count it returns is sizeof(size_t) + n * sizeof(int) for the
    [n] elements read and stays within the buffer, and [legion_serialize]
    writes that vector back as exactly the bytes consumed. *)
Theorem legion_serialize_deserialize (buffer : list byte) (v : MyVec) (n : Z) :
  Z.of_nat (length buffer) < 2 ^ 64 →
  legion_deserialize buffer = Done (v, n) →
  n = sizeof_size_t + sizeof_int * Z.of_nat (length v)
  ∧ n ≤ Z.of_nat (length buffer)
  ∧ Forall is_int v
  ∧ legion_serialize v = (take (Z.to_nat n) buffer, n).
Proof.
  intros Hbuf. unfold legion_deserialize, read_size_t.
  destruct (read_bytes buffer 0 sizeof_size_t) as [hd| | |] eqn:Hhd; try done.
  apply read_bytes_done in Hhd as (_ & Hfit & Hhd & Hlen); [|unfold sizeof_size_t; lia].
  unfold sizeof_size_t in Hfit, Hhd, Hlen.
  change (Z.to_nat 8) with 8%nat in *. change (Z.to_nat 0) with 0%nat in *.
  rewrite drop_0 in Hhd.
  cbn [mbind outcome_bind]. intros Hrun.
  apply read_elems_done in Hrun as (Hn & Hle & Hlenv & Hint & Hbytes);
    [|done|unfold sizeof_size_t; lia].
  pose proof (load_le_bound hd) as Hb. rewrite Hlen in Hb.
  change (256 ^ Z.of_nat 8) with (2 ^ 64) in Hb.
  rewrite Z2Nat.id in Hn by lia.
  assert (Hv : Z.of_nat (length v) = load_le hd) by lia.
  split; [lia|]. split; [done|]. split; [done|].
  rewrite legion_serialize_eq
    by (unfold addressable; unfold sizeof_size_t, sizeof_int in *; lia).
  f_equal; [|lia].
  rewrite Hv, Hbytes.
  pose proof (store_load_le hd 0) as Hst.
  rewrite Hlen, Z.mul_0_r, Z.add_0_r in Hst. rewrite Hst, Hhd.
  change (Z.to_nat sizeof_size_t) with 8%nat.
  rewrite take_take_drop. f_equal.
  unfold sizeof_size_t, sizeof_int in Hn. rewrite <- Hhd. lia.
Qed.

Lemma legion_serialize_deserialize_witness :
  Z.of_nat (length [x01; x00; x00; x00; x00; x00; x00; x00;
                    xfe; xff; xff; xff; x07]) < 2 ^ 64
  ∧ legion_deserialize [x01; x00; x00; x00; x00; x00; x00; x00;
                        xfe; xff; xff; xff; x07] = Done ([-2], 12)
  ∧ legion_serialize [-2]
    = ([x01; x00; x00; x00; x00; x00; x00; x00; xfe; xff; xff; xff], 12).
Proof.
  assert (H1 : Z.of_nat (length [x01; x00; x00; x00; x00; x00; x00; x00;
                                 xfe; xff; xff; xff; x07]) < 2 ^ 64)
    by (simpl; lia).
  assert (H2 : legion_deserialize [x01; x00; x00; x00; x00; x00; x00; x00;
                                   xfe; xff; xff; xff; x07] = Done ([-2], 12))
    by reflexivity.
  split; [exact H1|]. split; [exact H2|].
  exact (proj2 (proj2 (proj2 (legion_serialize_deserialize _ _ _ H1 H2)))).
Defined.



(** ** Input handling *)

Lemma positional_sublist (tokens : list string) :
  sublist (positional tokens) tokens
  ∧ Forall (λ t, starts_with_dash t = false) (positional tokens).
Proof.
  assert (G : ∀ n toks, (length toks < n)%nat →
              sublist (positional toks) toks
              ∧ Forall (λ t, starts_with_dash t = false) (positional toks)).
  { induction n as [|n IH]; intros toks Hn; [lia|].
    destruct toks as [|t rest]; [split; constructor|].
    cbn [positional length] in *. destruct (starts_with_dash t) eqn:Ht.
    - destruct rest as [|t2 rest']; [split; [apply sublist_nil_l|constructor]|].
      cbn [length] in Hn. destruct (IH rest') as [IH1 IH2]; [lia|].
      split; [by do 2 apply sublist_cons|done].
    - destruct (IH rest) as [IH1 IH2]; [lia|].
      split; [by apply sublist_skip|by constructor]. }
  apply (G (Datatypes.S (length tokens))). lia.
Qed.

(** The integers that input handling collects are the [atoi] values of some
    of the arguments, in their order, none of which begins with '-': an
    argument written with a leading minus sign is never data, and the count
    returned is the number of integers. *)
Theorem handle_inputs_takes_dashless_arguments (args : list string) :
  Z.of_nat (length args) + 2 ≤ INT_MAX →
  ∃ data, handle_inputs (command_line args)
          = Done (Z.of_nat (length data), map atoi data)
    ∧ sublist data args
    ∧ Forall (λ t, starts_with_dash t = false) data.
Proof.
  intros Hfit. exists (positional args).
  split; [by apply handle_inputs_eq|apply positional_sublist].
Qed.

Lemma handle_inputs_takes_dashless_arguments_witness :
  Z.of_nat (length ["4"; "-7"; "2"; "9"]%string) + 2 ≤ INT_MAX
  ∧ ∃ data, handle_inputs (command_line ["4"; "-7"; "2"; "9"]%string)
            = Done (Z.of_nat (length data), map atoi data)
      ∧ Forall (λ t, starts_with_dash t = false) data.
Proof.
  assert (H : Z.of_nat (length ["4"; "-7"; "2"; "9"]%string) + 2 ≤ INT_MAX)
    by (unfold INT_MAX; simpl; lia).
  split; [exact H|].
  destruct (handle_inputs_takes_dashless_arguments _ H) as (data & H1 & _ & H2).
  exists data. split; [exact H1|exact H2].
Defined.

(** ** The merge task without sorted inputs *)

(** The cross phase pairs slot [i] of the first run with slot [m-1-i] of the
    second, puts the smaller value in slot [i] of the buffer and the larger
    one in slot [2m-1-i]; this needs no order in the runs, and the buffer
    holds exactly the values of the two runs. *)
Theorem cross_phase_min_max (l r : list Z) :
  length r = length l → Z.of_nat (2 * length l) ≤ INT_MAX →
  ∃ buf, cross_phase l r = Done buf
    ∧ length buf = (2 * length l)%nat
    ∧ buf ≡ₚ l ++ r
    ∧ ∀ i, (i < length l)%nat →
        buf !!! i = Z.min (l !!! i) (r !!! (length l - 1 - i)%nat)
        ∧ buf !!! (2 * length l - 1 - i)%nat
          = Z.max (l !!! i) (r !!! (length l - 1 - i)%nat).
Proof.
  intros Hr Hmax. exists (cross l r).
  split; [by apply cross_phase_eq|]. split; [apply length_cross|].
  split; [by apply cross_perm|].
  intros i Hi. rewrite !cross_total by lia. unfold cross_slot. cbv zeta.
  replace (i <? length l)%nat with true by lia.
  replace (2 * length l - 1 - i <? length l)%nat with false by lia.
  split; [done|]. do 2 f_equal; lia.
Qed.

Lemma cross_phase_min_max_witness :
  length [2; 8; 1]%Z = length [9; 4; 6]%Z
  ∧ Z.of_nat (2 * length [9; 4; 6]%Z) ≤ INT_MAX
  ∧ ∃ buf, cross_phase [9; 4; 6] [2; 8; 1] = Done buf ∧ buf ≡ₚ [9; 4; 6] ++ [2; 8; 1].
Proof.
  assert (H1 : length [2; 8; 1]%Z = length [9; 4; 6]%Z) by reflexivity.
  assert (H2 : Z.of_nat (2 * length [9; 4; 6]%Z) ≤ INT_MAX)
    by (unfold INT_MAX; simpl; lia).
  split; [exact H1|]. split; [exact H2|].
  destruct (cross_phase_min_max _ _ H1 H2) as (buf & Hb & _ & Hp & _).
  exists buf. split; [exact Hb|exact Hp].
Defined.

(** The half-cleaner rounds of the merge task, on any buffer of 2 * 2^k
    slots: the rounds complete and rearrange the buffer without losing or
    repeating a value; when no four slots of a half alternate and every slot
    of the low half is at most every slot of the high half, the buffer comes
    out in non-decreasing order. *)
Theorem sort_bitonic_sorts (k : nat) (s : list Z) :
  length s = (2 * 2 ^ k)%nat → Z.of_nat (2 * 2 ^ k) ≤ INT_MAX →
  ∃ out, sort_bitonic (Z.of_nat (2 ^ k)) (Z.of_nat (2 * 2 ^ k)) s = Done out
    ∧ length out = length s
    ∧ out ≡ₚ s
    ∧ (windows_ordered (2 ^ k) s → windows_bitonic (2 ^ k) s → Sorted Z.le out).
Proof.
  intros Hs Hmax. exists (clean_rounds k s).
  assert (Hs' : length s = (2 ^ k * 2)%nat) by lia.
  split; [|split; [apply length_clean_rounds|split]].
  - unfold sort_bitonic. replace (2 * 2 ^ k)%nat with (2 ^ k * 2)%nat by lia.
    apply sort_bitonic_eq; [|lia|done|].
    + assert (2 ^ k ≤ 2 * 2 ^ k)%nat by lia.
      assert (k < 31)%nat by (apply pow2_nat_small; lia).
      unfold budget. change (Z.to_nat 32) with 32%nat. lia.
    + replace (2 ^ k * 2)%nat with (2 * 2 ^ k)%nat by lia. done.
  - by apply (clean_rounds_perm k 2).
  - intros Hord Hbit. apply ascending_Sorted, windows_ordered_1.
    by apply (clean_rounds_ordered k 2); [lia|..].
Qed.

Lemma sort_bitonic_sorts_witness :
  length [1; 2; 5; 3]%Z = (2 * 2 ^ 1)%nat ∧ Z.of_nat (2 * 2 ^ 1) ≤ INT_MAX
  ∧ windows_ordered (2 ^ 1) [1; 2; 5; 3] ∧ windows_bitonic (2 ^ 1) [1; 2; 5; 3]
  ∧ ∃ out, sort_bitonic (Z.of_nat (2 ^ 1)) (Z.of_nat (2 * 2 ^ 1)) [1; 2; 5; 3] = Done out
           ∧ Sorted Z.le out.
Proof.
  assert (H1 : length [1; 2; 5; 3]%Z = (2 * 2 ^ 1)%nat) by reflexivity.
  assert (H2 : Z.of_nat (2 * 2 ^ 1) ≤ INT_MAX) by (unfold INT_MAX; simpl; lia).
  assert (Hl : ascending [1; 5]) by (apply Sorted_ascending; repeat constructor; lia).
  assert (Hr : ascending [2; 3]) by (apply Sorted_ascending; repeat constructor; lia).
  assert (H3 : windows_ordered (2 ^ 1) [1; 2; 5; 3])
    by exact (cross_ordered [1; 5] [2; 3] eq_refl Hl Hr).
  assert (H4 : windows_bitonic (2 ^ 1) [1; 2; 5; 3])
    by exact (cross_bitonic [1; 5] [2; 3] eq_refl Hl Hr).
  split; [exact H1|]. split; [exact H2|]. split; [exact H3|]. split; [exact H4|].
  destruct (sort_bitonic_sorts 1 _ H1 H2) as (out & Hout & _ & _ & Hsorted).
  exists out. split; [exact Hout|exact (Hsorted H3 H4)].
Defined.

(** On two runs of 2^k slots each, in any order, the merge task returns
    2 * 2^k slots that hold exactly the values of the two runs: sorted or
    not, its result is a rearrangement of its inputs. *)
Theorem subsorter_task_rearranges (k : nat) (l r : list Z) :
  length l = (2 ^ k)%nat → length r = (2 ^ k)%nat →
  Z.of_nat (2 * 2 ^ k) ≤ INT_MAX →
  ∃ out, subsorter_task {| args := []; futures := [l; r] |} = Done out
    ∧ length out = (2 * 2 ^ k)%nat
    ∧ out ≡ₚ l ++ r.
Proof.
  intros Hl Hr Hmax. exists (bitonic_merge k l r).
  split; [by apply launch_subsorter_eq|]. split.
  - unfold bitonic_merge. rewrite length_clean_rounds, length_cross. lia.
  - by apply bitonic_merge_perm.
Qed.

Lemma subsorter_task_rearranges_witness :
  length [9; 1]%Z = (2 ^ 1)%nat ∧ length [4; 7]%Z = (2 ^ 1)%nat
  ∧ Z.of_nat (2 * 2 ^ 1) ≤ INT_MAX
  ∧ ∃ out, subsorter_task {| args := []; futures := [[9; 1]; [4; 7]] |} = Done out
           ∧ out ≡ₚ [9; 1] ++ [4; 7].
Proof.
  assert (H1 : length [9; 1]%Z = (2 ^ 1)%nat) by reflexivity.
  assert (H2 : length [4; 7]%Z = (2 ^ 1)%nat) by reflexivity.
  assert (H3 : Z.of_nat (2 * 2 ^ 1) ≤ INT_MAX) by (unfold INT_MAX; simpl; lia).
  split; [exact H1|]. split; [exact H2|]. split; [exact H3|].
  destruct (subsorter_task_rearranges 1 _ _ H1 H2 H3) as (out & Hout & _ & Hp).
  exists out. split; [exact Hout|exact Hp].
Defined.

(** The merge task stops at its assertions when it is not given exactly two
    futures, and when the two futures differ in length. *)
Theorem subsorter_task_rejects (task : Task) :
  Z.of_nat (length (futures task)) < 2 ^ 64 →
  Forall (λ f : Future, Z.of_nat (length f) < 2 ^ 64) (futures task) →
  length (futures task) ≠ 2%nat
  ∨ (∃ f1 f2, futures task = [f1; f2] ∧ length f1 ≠ length f2) →
  subsorter_task task = Abort.
Proof.
  intros Hn Hfs Hbad. unfold subsorter_task, size.
  rewrite wrap64u_id by lia.
  destruct Hbad as [Hbad|(f1 & f2 & Hf & Hbad)].
  - replace (Z.of_nat (length (futures task)) =? 2) with false by lia. done.
  - rewrite Hf in *. cbn [length].
    change (Z.of_nat 2 =? 2) with true. cbn [assert mbind outcome_bind].
    change (vec_get [f1; f2] 0) with (Done f1).
    change (vec_get [f1; f2] 1) with (Done f2).
    cbn [mbind outcome_bind].
    apply Forall_cons in Hfs as [H1 Hfs]. apply Forall_cons in Hfs as [H2 _].
    rewrite !wrap64u_id by lia.
    replace (Z.of_nat (length f1) =? Z.of_nat (length f2)) with false by lia.
    done.
Qed.

Lemma subsorter_task_rejects_witness :
  subsorter_task {| args := []; futures := [[1; 2]; [3]] |} = Abort.
Proof.
  apply subsorter_task_rejects.
  - simpl. lia.
  - repeat constructor; simpl; lia.
  - right. exists [1; 2], [3]. split; [reflexivity|]. simpl. lia.
Defined.

(** ** The rounds of the top-level task *)

(** Round 0 on an even number of slots: one comparator per pair of
    neighbouring slots, whose future holds the smaller value and then the
    larger; the futures, in order, hold exactly the values of the input. *)
Theorem first_swaps_sorted_pairs (c : nat) (s : list Z) :
  length s = (2 * c)%nat → Z.of_nat (2 * c) < INT_MAX →
  ∃ results, first_swaps (Z.of_nat (2 * c)) s = Done results
    ∧ length results = c
    ∧ (∀ j, (j < c)%nat →
         results !! j = Some [Z.min (s !!! (2 * j)%nat) (s !!! (2 * j + 1)%nat);
                              Z.max (s !!! (2 * j)%nat) (s !!! (2 * j + 1)%nat)])
    ∧ Forall (λ run, length run = 2%nat ∧ Sorted Z.le run) results
    ∧ concat results ≡ₚ s.
Proof.
  intros Hs Hmax. exists (pairwise two_sorter s).
  split; [by apply first_swaps_eq|]. split; [by apply length_pairwise|].
  destruct (pairwise_two_sorter_ok c s Hs) as [Hruns Hperm].
  split; [|split; [exact Hruns|exact Hperm]].
  intros j Hj. rewrite <- (pairwise_tabulate two_sorter c s Hs).
  rewrite list_lookup_fmap, lookup_seq_lt by done. done.
Qed.

Lemma first_swaps_sorted_pairs_witness :
  length [7; 3; 2; 8]%Z = (2 * 2)%nat ∧ Z.of_nat (2 * 2) < INT_MAX
  ∧ ∃ results, first_swaps (Z.of_nat (2 * 2)) [7; 3; 2; 8] = Done results
               ∧ concat results ≡ₚ [7; 3; 2; 8].
Proof.
  assert (H1 : length [7; 3; 2; 8]%Z = (2 * 2)%nat) by reflexivity.
  assert (H2 : Z.of_nat (2 * 2) < INT_MAX) by (unfold INT_MAX; simpl; lia).
  split; [exact H1|]. split; [exact H2|].
  destruct (first_swaps_sorted_pairs 2 _ H1 H2) as (res & Hres & _ & _ & _ & Hp).
  exists res. split; [exact Hres|exact Hp].
Defined.

(** The merge rounds, started on 2^d sorted pairs, complete; each round is
    appended to the history, and the last entry of the history is a single
    future of 2 * 2^d slots, in non-decreasing order, holding exactly the
    values of the pairs. *)
Theorem merge_rounds_single_run (d : nat) (runs : list (list Z)) :
  length runs = (2 ^ d)%nat →
  Forall (λ run, length run = 2%nat ∧ Sorted Z.le run) runs →
  Z.of_nat (2 ^ (2 + d)) ≤ INT_MAX →
  ∃ iterResults run,
    merge_rounds (Z.of_nat (2 ^ (1 + d))) [runs] = Done iterResults
    ∧ last iterResults = Some [run]
    ∧ length run = (2 ^ (1 + d))%nat
    ∧ Sorted Z.le run
    ∧ run ≡ₚ concat runs.
Proof.
  intros Hlen Hruns Hmax.
  destruct (merge_rounds_loop d 1 (budget 32) [runs] runs (concat runs))
    as (iterResults & run & Hloop & Hlast & [Hrun Hperm]).
  - assert (d < 31)%nat; [|unfold budget; change (Z.to_nat 32) with 32%nat; lia].
    apply pow2_nat_small.
    assert (2 ^ d ≤ 2 ^ (2 + d))%nat by (apply Nat.pow_le_mono_r; lia). lia.
  - done.
  - done.
  - split; [|done]. eapply Forall_impl; [exact Hruns|]. by intros ? [? ?].
  - done.
  - exists iterResults, run. split; [exact Hloop|]. split; [done|].
    apply Forall_cons in Hrun as [[Hrunlen Hsorted] _].
    cbn [concat] in Hperm. rewrite app_nil_r in Hperm. done.
Qed.

Lemma merge_rounds_single_run_witness :
  length [[3; 7]; [2; 8]]%Z = (2 ^ 1)%nat
  ∧ Forall (λ run, length run = 2%nat ∧ Sorted Z.le run) [[3; 7]; [2; 8]]
  ∧ Z.of_nat (2 ^ (2 + 1)) ≤ INT_MAX
  ∧ ∃ iterResults run,
      merge_rounds (Z.of_nat (2 ^ (1 + 1))) [[[3; 7]; [2; 8]]] = Done iterResults
      ∧ last iterResults = Some [run] ∧ Sorted Z.le run.
Proof.
  assert (H1 : length [[3; 7]; [2; 8]]%Z = (2 ^ 1)%nat) by reflexivity.
  assert (H2 : Forall (λ run, length run = 2%nat ∧ Sorted Z.le run) [[3; 7]; [2; 8]]).
  { repeat constructor; lia. }
  assert (H3 : Z.of_nat (2 ^ (2 + 1)) ≤ INT_MAX) by (unfold INT_MAX; simpl; lia).
  split; [exact H1|]. split; [exact H2|]. split; [exact H3|].
  destruct (merge_rounds_single_run 1 _ H1 H2 H3) as (it & run & Hit & Hl & _ & Hs & _).
  exists it, run. split; [exact Hit|]. split; [exact Hl|exact Hs].
Defined.

(** ** The top-level task as a function of its arguments *)

(** A sorted sequence is the result of [merge_sort] on any of its
    rearrangements. *)
Lemma Sorted_merge_sort_eq (s nums : list Z) :
  Sorted Z.le s → s ≡ₚ nums → s = merge_sort Z.le nums.
Proof.
  intros Hs Hperm. apply (Sorted_unique Z.le); [done| |].
  - apply Sorted_merge_sort; apply _.
  - by rewrite Hperm, merge_sort_Permutation.
Qed.

Lemma atoi_is_int (t : string) : is_int (atoi t).
Proof. apply wrap32_is_int. Qed.

Lemma top_level_task_eq (args : list string) :
  Z.of_nat (length args) + 2 ≤ INT_MAX →
  2 ≤ Z.of_nat (length (positional args)) ≤ 2 ^ 29 →
  top_level_task (command_line args)
  = Done (map print_token (merge_sort Z.le (map atoi (positional args)))).
Proof.
  intros Hfit HN. unfold top_level_task.
  rewrite handle_inputs_eq by done. cbn [mbind outcome_bind].
  set (nums := map atoi (positional args)).
  assert (Hlen : length nums = length (positional args)) by apply length_map.
  rewrite <- Hlen in *.
  replace (0 <? Z.of_nat (length nums)) with true by lia.
  cbn [assert mbind outcome_bind].
  destruct (normalize_eq nums) as (p & (k & Hk & -> & Hle & Hmin) & Hnorm); [lia|].
  rewrite Hnorm. cbn [mbind outcome_bind].
  assert (Hk1 : 1 ≤ k).
  { destruct (Z.eq_dec k 0) as [->|]; [|lia]. change (2 ^ 0) with 1 in Hle. lia. }
  assert (Hk29 : 2 ^ k ≤ 2 ^ 29) by (apply Hmin; lia).
  assert (Hk29' : k ≤ 29).
  { destruct (Z_le_gt_dec k 29) as [|Hgt]; [done|].
    assert (2 ^ 30 ≤ 2 ^ k) by (apply Z.pow_le_mono_r; lia). lia. }
  set (d := Z.to_nat (k - 1)).
  assert (Hp : 2 ^ k = Z.of_nat (2 ^ (1 + d))).
  { rewrite Nat2Z.inj_pow. f_equal. lia. }
  assert (Hp2 : (2 ^ (1 + d) = 2 * 2 ^ d)%nat) by apply Nat.pow_succ_r'.
  set (padded := nums ++ replicate (Z.to_nat (2 ^ k) - length nums) INT_MAX).
  assert (Hpad : length padded = (2 * 2 ^ d)%nat).
  { unfold padded. rewrite length_app, length_replicate. lia. }
  rewrite Hp, Hp2.
  rewrite (first_swaps_eq (2 ^ d) padded Hpad) by (unfold INT_MAX; lia).
  cbn [mbind outcome_bind]. unfold after_first_swaps.
  destruct (merge_rounds_loop d 1 (budget 32) [pairwise two_sorter padded]
              (pairwise two_sorter padded) padded)
    as (iterResults' & run & Hloop & Hlast & [Hrun Hperm]).
  { unfold budget. change (Z.to_nat 32) with 32%nat. lia. }
  { done. }
  { by apply length_pairwise. }
  { by apply (pairwise_two_sorter_ok (2 ^ d)). }
  { replace (Datatypes.S (1 + d)) with (Z.to_nat (k + 1)) by lia.
    assert (Z.of_nat (2 ^ Z.to_nat (k + 1)) = 2 ^ (k + 1))
      by (rewrite Nat2Z.inj_pow; f_equal; lia).
    assert (2 ^ (k + 1) ≤ 2 ^ 30) by (apply Z.pow_le_mono_r; lia).
    unfold INT_MAX. lia. }
  rewrite <- Hp2.
  assert (Hmerge : merge_rounds (Z.of_nat (2 ^ (1 + d))) [pairwise two_sorter padded]
                   = Done iterResults') by exact Hloop.
  rewrite Hmerge. cbn [mbind outcome_bind].
  rewrite (back_last _ _ Hlast). cbn [mbind outcome_bind].
  change (size [run] =? 1) with true. cbn [assert mbind outcome_bind].
  change (vec_get [run] 0) with (Done run). cbn [mbind outcome_bind].
  apply Forall_cons in Hrun as [[Hrunlen Hsorted] _].
  cbn [concat] in Hperm. rewrite app_nil_r in Hperm.
  replace (size run =? wrap64u (Z.of_nat (2 ^ (1 + d)))) with true.
  2:{ unfold size. rewrite Hrunlen. symmetry. apply Z.eqb_refl. }
  cbn [assert mbind outcome_bind].
  change 0 with (Z.of_nat 0).
  rewrite print_myvec_range_eq; [|lia|rewrite Hrunlen; lia|unfold INT_MAX; lia].
  rewrite drop_0, Nat.sub_0_r. do 2 f_equal.
  destruct (sorted_prefix_of_padded run nums (Z.to_nat (2 ^ k) - length nums))
    as [Hs Hp']; try done.
  - apply Forall_forall. intros x Hx. unfold nums in Hx.
    apply list_elem_of_fmap in Hx as (a & -> & _). apply atoi_is_int.
  - by apply Sorted_merge_sort_eq.
Qed.

(** Given two or more data arguments, the top-level task prints exactly one
    token per input integer: the tokens of the input in non-decreasing
    order, that is of the one sorted rearrangement of the parsed integers. *)
Theorem top_level_task_prints_sorted_input (args : list string) :
  Z.of_nat (length args) + 2 ≤ INT_MAX →
  2 ≤ Z.of_nat (length (positional args)) ≤ 2 ^ 29 →
  ∃ sorted,
    top_level_task (command_line args) = Done (map print_token sorted)
    ∧ length (map print_token sorted) = length (positional args)
    ∧ Sorted Z.le sorted
    ∧ sorted ≡ₚ map atoi (positional args)
    ∧ ∀ sorted', Sorted Z.le sorted' → sorted' ≡ₚ map atoi (positional args) →
        sorted' = sorted.
Proof.
  intros Hfit HN. exists (merge_sort Z.le (map atoi (positional args))).
  split; [by apply top_level_task_eq|].
  split; [by rewrite length_map, merge_sort_Permutation, length_map|].
  split; [apply Sorted_merge_sort; apply _|].
  split; [apply merge_sort_Permutation|].
  intros sorted' Hs Hp. by apply Sorted_merge_sort_eq.
Qed.

Lemma top_level_task_prints_sorted_input_witness :
  Z.of_nat (length ["3"; "-ll:cpu"; "4"; "1"; "2147483647"; "2"]%string) + 2 ≤ INT_MAX
  ∧ 2 ≤ Z.of_nat (length (positional
                            ["3"; "-ll:cpu"; "4"; "1"; "2147483647"; "2"]%string))
      ≤ 2 ^ 29
  ∧ ∃ sorted,
      top_level_task (command_line ["3"; "-ll:cpu"; "4"; "1"; "2147483647"; "2"]%string)
      = Done (map print_token sorted)
      ∧ Sorted Z.le sorted.
Proof.
  assert (H1 : Z.of_nat (length ["3"; "-ll:cpu"; "4"; "1"; "2147483647"; "2"]%string)
               + 2 ≤ INT_MAX) by (unfold INT_MAX; simpl; lia).
  assert (H2 : 2 ≤ Z.of_nat (length (positional
                 ["3"; "-ll:cpu"; "4"; "1"; "2147483647"; "2"]%string)) ≤ 2 ^ 29)
    by (simpl; lia).
  split; [exact H1|]. split; [exact H2|].
  destruct (top_level_task_prints_sorted_input _ H1 H2) as (sorted & Hrun & _ & Hs & _).
  exists sorted. split; [exact Hrun|exact Hs].
Defined.

(** What is printed does not depend on the order of the data arguments, nor
    on the flags between them: two command lines whose data arguments parse
    to the same integers, in any order, print the same tokens. *)
Theorem top_level_task_order_insensitive (args1 args2 : list string) :
  Z.of_nat (length args1) + 2 ≤ INT_MAX →
  Z.of_nat (length args2) + 2 ≤ INT_MAX →
  2 ≤ Z.of_nat (length (positional args1)) ≤ 2 ^ 29 →
  map atoi (positional args1) ≡ₚ map atoi (positional args2) →
  top_level_task (command_line args1) = top_level_task (command_line args2).
Proof.
  intros Hfit1 Hfit2 HN Hperm.
  assert (Hlen : length (positional args1) = length (positional args2)).
  { apply Permutation_length in Hperm. by rewrite !length_map in Hperm. }
  rewrite !top_level_task_eq by (done || lia).
  do 2 f_equal. symmetry. apply Sorted_merge_sort_eq.
  - apply Sorted_merge_sort; apply _.
  - by rewrite merge_sort_Permutation.
Qed.

Lemma top_level_task_order_insensitive_witness :
  top_level_task (command_line ["3"; "1"; "2"]%string)
  = top_level_task (command_line ["-x"; "0"; "1"; "3"; "-y"; "5"; "2"]%string).
Proof.
  apply top_level_task_order_insensitive.
  - unfold INT_MAX. simpl. lia.
  - unfold INT_MAX. simpl. lia.
  - simpl. lia.
  - vm_compute. apply Permutation_swap.
Defined.

(** The padding value is also the mark of a padded slot: an input integer
    equal to INT_MAX is printed as '#', never as a number, while every other
    input integer is printed as itself. *)
Theorem top_level_task_prints_hash (args : list string) :
  Z.of_nat (length args) + 2 ≤ INT_MAX →
  2 ≤ Z.of_nat (length (positional args)) ≤ 2 ^ 29 →
  ∃ toks, top_level_task (command_line args) = Done toks
    ∧ (Hash ∈ toks ↔ INT_MAX ∈ map atoi (positional args))
    ∧ (Num INT_MAX ∉ toks)
    ∧ ∀ x, x ≠ INT_MAX → (Num x ∈ toks ↔ x ∈ map atoi (positional args)).
Proof.
  intros Hfit HN. eexists. split; [by apply top_level_task_eq|].
  set (nums := map atoi (positional args)).
  assert (Hin : ∀ (t : token), t ∈ map print_token (merge_sort Z.le nums)
                  ↔ ∃ x, t = print_token x ∧ x ∈ nums).
  { intros t. rewrite list_elem_of_fmap.
    split; intros (x & -> & Hx); exists x; (split; [done|]).
    - by rewrite merge_sort_Permutation in Hx.
    - by rewrite merge_sort_Permutation. }
  split; [|split].
  - rewrite Hin. split.
    + intros (x & Hx & Hnum). symmetry in Hx. apply print_token_Hash in Hx. by subst.
    + intros Hmax. exists INT_MAX. done.
  - rewrite Hin. intros (x & Hx & _). unfold print_token in Hx.
    destruct (Z.eqb_spec x INT_MAX) as [Heq|Hne]; [done|]. congruence.
  - intros x Hx. rewrite Hin. split.
    + intros (y & Hy & Hnum). unfold print_token in Hy.
      destruct (Z.eqb_spec y INT_MAX) as [Heq|Hne]; [done|]. congruence.
    + intros Hnum. exists x. split; [|done]. unfold print_token.
      by destruct (Z.eqb_spec x INT_MAX).
Qed.

Lemma top_level_task_prints_hash_witness :
  Z.of_nat (length ["7"; "2147483647"; "5"]%string) + 2 ≤ INT_MAX
  ∧ 2 ≤ Z.of_nat (length (positional ["7"; "2147483647"; "5"]%string)) ≤ 2 ^ 29
  ∧ top_level_task (command_line ["7"; "2147483647"; "5"]%string)
    = Done [Num 5; Num 7; Hash]
  ∧ ∃ toks, top_level_task (command_line ["7"; "2147483647"; "5"]%string) = Done toks
            ∧ (Num INT_MAX ∉ toks).
Proof.
  assert (H1 : Z.of_nat (length ["7"; "2147483647"; "5"]%string) + 2 ≤ INT_MAX)
    by (unfold INT_MAX; simpl; lia).
  assert (H2 : 2 ≤ Z.of_nat (length (positional ["7"; "2147483647"; "5"]%string))
               ≤ 2 ^ 29) by (simpl; lia).
  split; [exact H1|]. split; [exact H2|]. split; [reflexivity|].
  destruct (top_level_task_prints_hash _ H1 H2) as (toks & Hrun & _ & Hno & _).
  exists toks. split; [exact Hrun|exact Hno].
Defined.

(** Without a data argument (no argument at all, or flags with their values
    only), [assert(num_inputs > 0)] stops the task before anything is
    sorted. *)
Theorem top_level_task_without_data (args : list string) :
  Z.of_nat (length args) + 2 ≤ INT_MAX →
  positional args = [] →
  top_level_task (command_line args) = Abort.
Proof.
  intros Hfit Hnone. unfold top_level_task.
  rewrite handle_inputs_eq by done. rewrite Hnone. reflexivity.
Qed.

Lemma top_level_task_without_data_witness :
  Z.of_nat (length ["-ll:cpu"; "4"; "-v"]%string) + 2 ≤ INT_MAX
  ∧ positional ["-ll:cpu"; "4"; "-v"]%string = []
  ∧ top_level_task (command_line ["-ll:cpu"; "4"; "-v"]%string) = Abort.
Proof.
  assert (H1 : Z.of_nat (length ["-ll:cpu"; "4"; "-v"]%string) + 2 ≤ INT_MAX)
    by (unfold INT_MAX; simpl; lia).
  assert (H2 : positional ["-ll:cpu"; "4"; "-v"]%string = []) by reflexivity.
  split; [exact H1|]. split; [exact H2|].
  exact (top_level_task_without_data _ H1 H2).
Defined.

(** With exactly one data argument, whatever its value and whatever flags
    surround it, nothing is padded, and round 0 reads [nums[1]] of the
    one-element vector: the task never gets to print the input. *)
Theorem top_level_task_single_datum (args : list string) (t : string) :
  Z.of_nat (length args) + 2 ≤ INT_MAX →
  positional args = [t] →
  normalize 1 [atoi t] = Done (1, [atoi t])
  ∧ first_swaps 1 [atoi t] = Undef
  ∧ top_level_task (command_line args) = Undef.
Proof.
  intros Hfit Hone.
  assert (Hn : normalize 1 [atoi t] = Done (1, [atoi t])) by reflexivity.
  assert (Hf : first_swaps 1 [atoi t] = Undef) by reflexivity.
  split; [done|]. split; [done|].
  unfold top_level_task. rewrite handle_inputs_eq by done. rewrite Hone.
  cbn [length map mbind outcome_bind]. change (Z.of_nat 1) with 1.
  change (0 <? 1) with true. cbn [assert mbind outcome_bind].
  rewrite Hn. cbn [mbind outcome_bind]. rewrite Hf. done.
Qed.

Lemma top_level_task_single_datum_witness :
  Z.of_nat (length ["-ll:cpu"; "4"; "42"]%string) + 2 ≤ INT_MAX
  ∧ positional ["-ll:cpu"; "4"; "42"]%string = ["42"%string]
  ∧ top_level_task (command_line ["-ll:cpu"; "4"; "42"]%string) = Undef.
Proof.
  assert (H1 : Z.of_nat (length ["-ll:cpu"; "4"; "42"]%string) + 2 ≤ INT_MAX)
    by (unfold INT_MAX; simpl; lia).
  assert (H2 : positional ["-ll:cpu"; "4"; "42"]%string = ["42"%string]) by reflexivity.
  split; [exact H1|]. split; [exact H2|].
  exact (proj2 (proj2 (top_level_task_single_datum _ _ H1 H2))).
Defined.
